(** * Impostor maker: alignment and normalisation pipeline

    A shallow embedding of [src/impostormaker.py] (Python 3, Pillow) and the
    properties of its cropping, validation, compositing, size and naming
    steps.

    Conventions of the embedding:
    - Python [int] is [Z]; Python [float] is an IEEE 754 binary64 value,
      represented by [spec_float] with the operations of the Standard
      Library's [SpecFloat] at precision 53 and maximal exponent 1024.
    - A Python call either returns a value or raises: [result].
    - [print] and [Image.show] only write to the console or the screen and
      are left out. *)

From Stdlib Require Import String Ascii.
From Stdlib Require Import ZArith List Bool Lia.
From Stdlib Require Import Floats.SpecFloat.
From Stdlib Require Import Sorting.Permutation.
Import ListNotations.

Open Scope Z_scope.

(* ================================================================== *)
(** * Python values, exceptions and built-ins                          *)
(* ================================================================== *)

Module Py.

Inductive exn : Type :=
| ZeroDivisionError
| ValueError
| OverflowError
| TypeError
| AttributeError
| IndexError
| OSError.

Inductive result (A : Type) : Type :=
| Return (a : A)
| Raise (e : exn).
Arguments Return {A} a.
Arguments Raise {A} e.

Definition bind {A B : Type} (c : result A) (k : A -> result B) : result B :=
  match c with
  | Return a => k a
  | Raise e => Raise e
  end.

(** ** Floats *)

Definition prec : Z := 53.
Definition emax : Z := 1024.
Definition float : Type := spec_float.

(** The value of an integer, as an exact (not yet rounded) operand. *)
Definition exact_int (n : Z) : float :=
  match n with
  | Z0 => S754_zero false
  | Zpos p => S754_finite false p 0
  | Zneg p => S754_finite true p 0
  end.

(** [float(n)]: nearest binary64, ties to even; too large an integer
    raises. *)
Definition float_of_int (n : Z) : result float :=
  match binary_normalize prec emax n 0 false with
  | S754_infinity _ => Raise OverflowError
  | f => Return f
  end.

(** [a / b] on two integers: the correctly rounded quotient. *)
Definition int_truediv (a b : Z) : result float :=
  if b =? 0 then Raise ZeroDivisionError
  else match SFdiv prec emax (exact_int a) (exact_int b) with
       | S754_infinity _ => Raise OverflowError
       | f => Return f
       end.

(** [x / y] on two floats. *)
Definition float_truediv (x y : float) : result float :=
  match y with
  | S754_zero _ => Raise ZeroDivisionError
  | _ => Return (SFdiv prec emax x y)
  end.

(** [x / n] and [x * n], float by integer: the integer is converted
    first. *)
Definition float_div_int (x : float) (n : Z) : result float :=
  bind (float_of_int n) (float_truediv x).

Definition float_mul_int (x : float) (n : Z) : result float :=
  bind (float_of_int n) (fun y => Return (SFmul prec emax x y)).

(** [x > y] on floats; false when either is a NaN. *)
Definition float_gt (x y : float) : bool := SFltb y x.

(** [x <= y] on floats. *)
Definition float_le (x y : float) : bool := SFleb x y.

(** [int(x)]: truncation towards zero. *)
Definition int_of_float (x : float) : result Z :=
  match x with
  | S754_zero _ => Return 0
  | S754_finite s m e =>
      Return (cond_Zopp s (match e with
                           | Zneg k => Z.shiftr (Zpos m) (Zpos k)
                           | _ => Z.shiftl (Zpos m) e
                           end))
  | S754_infinity _ => Raise OverflowError
  | S754_nan => Raise ValueError
  end.

Definition is_finite (x : float) : bool :=
  match x with
  | S754_zero _ | S754_finite _ _ _ => true
  | _ => false
  end.

(** ** [min] and [max] of a list: the first smallest (largest) item;
    an empty list raises. *)

Definition min_by {A : Type} (lt : A -> A -> bool) (l : list A) : result A :=
  match l with
  | [] => Raise ValueError
  | x :: t => Return (fold_left (fun m item => if lt item m then item else m) t x)
  end.

Definition max_by {A : Type} (lt : A -> A -> bool) (l : list A) : result A :=
  match l with
  | [] => Raise ValueError
  | x :: t => Return (fold_left (fun m item => if lt m item then item else m) t x)
  end.

Definition min : list Z -> result Z := min_by Z.ltb.
Definition max : list Z -> result Z := max_by Z.ltb.

(** ** Sequences: indexing with a possibly negative index, [split],
    [join]. *)

Definition index (len : nat) (i : Z) : result nat :=
  let j := if i <? 0 then i + Z.of_nat len else i in
  if (0 <=? j) && (j <? Z.of_nat len) then Return (Z.to_nat j)
  else Raise IndexError.

Definition getitem {A : Type} (l : list A) (i : Z) : result A :=
  bind (index (length l) i)
       (fun j => match nth_error l j with
                 | Some x => Return x
                 | None => Raise IndexError
                 end).

Definition setitem {A : Type} (l : list A) (i : Z) (v : A) : result (list A) :=
  bind (index (length l) i)
       (fun j => Return (firstn j l ++ v :: skipn (S j) l)).

Definition str : Type := list ascii.

(** [s.split(sep)] for a one-character separator. *)
Fixpoint split (sep : ascii) (s : str) : list str :=
  match s with
  | [] => [[]]
  | c :: s' =>
      if Ascii.eqb c sep then [] :: split sep s'
      else match split sep s' with
           | part :: parts => (c :: part) :: parts
           | [] => [[c]]
           end
  end.

(** [sep.join(parts)]. *)
Fixpoint join (sep : str) (parts : list str) : str :=
  match parts with
  | [] => []
  | [part] => part
  | part :: rest => part ++ sep ++ join sep rest
  end.

End Py.

Import Py.

Declare Scope py_scope.
Delimit Scope py_scope with py.
Notation "x <- c ;; k" := (bind c (fun x => k))
  (at level 61, c at next level, right associativity) : py_scope.
Open Scope py_scope.

(* ================================================================== *)
(** * Pillow images                                                    *)
(* ================================================================== *)

Module PIL.

(** One RGBA pixel: red, green, blue, alpha. *)
Definition pixel : Type := (Z * Z * Z * Z)%type.

Definition transparent : pixel := (0, 0, 0, 0).

Definition alpha (p : pixel) : Z := snd p.

(** A rectangle [(left, upper, right, lower)]. *)
Definition rect : Type := (Z * Z * Z * Z)%type.

Definition left (r : rect) : Z := fst (fst (fst r)).
Definition upper (r : rect) : Z := snd (fst (fst r)).
Definition right (r : rect) : Z := snd (fst r).
Definition lower (r : rect) : Z := snd r.

(** An image in mode RGBA: its [size] and its pixels by column [x] and
    row [y]; only the pixels with [0 <= x < width] and
    [0 <= y < height] belong to the image. *)
Record Image : Type := mkImage {
  size : Z * Z;
  getpixel : Z -> Z -> pixel
}.

(** [PIL.Image.new("RGBA", size)]: every pixel is transparent black. *)
Definition new (sz : Z * Z) : Image :=
  mkImage sz (fun _ _ => transparent).

Definition inside (im : Image) (x y : Z) : bool :=
  (0 <=? x) && (x <? fst (size im)) && (0 <=? y) && (y <? snd (size im)).

(** [im.crop(box)]: the region of [im] under [box]; what lies outside
    [im] is transparent. *)
Definition crop (im : Image) (box : rect) : Image :=
  mkImage (Z.max 0 (right box - left box), Z.max 0 (lower box - upper box))
          (fun x y =>
             if inside im (x + left box) (y + upper box)
             then getpixel im (x + left box) (y + upper box)
             else transparent).

(** [dst.paste(src, (x0, y0))] without a mask: the pixels of [src], all
    four bands, replace those of [dst] under the box of the size of
    [src] at [(x0, y0)]. *)
Definition paste (dst src : Image) (at_ : Z * Z) : Image :=
  mkImage (size dst)
          (fun x y =>
             if inside src (x - fst at_) (y - snd at_)
             then getpixel src (x - fst at_) (y - snd at_)
             else getpixel dst x y).

End PIL.

Import PIL.

(* ================================================================== *)
(** * The program                                                      *)
(* ================================================================== *)

(** ** [stringcommon], [stringscommon] *)

(** The [for i in range(cnt)] loop of [stringcommon], from index [i] with
    [n] iterations left: the first index where [a] and [b] differ. *)
Fixpoint stringcommon_loop (a b : str) (i : nat) (n : nat) : option nat :=
  match n with
  | O => None
  | S n' =>
      match nth_error a i, nth_error b i with
      | Some x, Some y =>
          if Ascii.eqb x y then stringcommon_loop a b (S i) n' else Some i
      | _, _ => Some i
      end
  end.

Definition stringcommon (a b : str) : nat :=
  let cnt := Nat.min (length a) (length b) in
  match stringcommon_loop a b 0 cnt with
  | Some i => i
  | None => cnt
  end.

(** The inner [None] is Python's [None]. *)
Definition stringscommon (lst : list str) : result (option str) :=
  match lst with
  | [] => Return None
  | lst0 :: _ =>
      cnt <- min_by Nat.ltb (map (fun s => stringcommon lst0 s) lst) ;;
      Return (Some (firstn cnt lst0))
  end.

(** ** The objects *)

(** The namespace [parseargs] returns. *)
Record Args : Type := mkArgs {
  width : float;
  height : float;
  rez : Z;
  faces : str;
  form : str;
  verbose : bool;
  files : list str
}.

(** What the program reads of an [impostorfile.ImpostorFile] once its
    [extract] has succeeded. *)
Record ImpostorFile : Type := mkImpostorFile {
  croppedbbox : rect;
  croppedimage : Image
}.

(** [croprect] and [sizes] start as [None]; [croppedimages] does not exist
    before [uniformcrop] sets it. *)
Record Impostor : Type := mkImpostor {
  options : Args;
  filenames : list str;
  framesize : float * float;
  impostorfiles : list ImpostorFile;
  croprect : option rect;
  sizes : option (Z * Z);
  croppedimages : option (list Image)
}.

Definition set_impostorfiles (self : Impostor) (v : list ImpostorFile) : Impostor :=
  mkImpostor (options self) (filenames self) (framesize self) v
             (croprect self) (sizes self) (croppedimages self).

Definition set_croprect (self : Impostor) (v : rect) : Impostor :=
  mkImpostor (options self) (filenames self) (framesize self)
             (impostorfiles self) (Some v) (sizes self) (croppedimages self).

Definition set_sizes (self : Impostor) (v : Z * Z) : Impostor :=
  mkImpostor (options self) (filenames self) (framesize self)
             (impostorfiles self) (croprect self) (Some v) (croppedimages self).

Definition set_croppedimages (self : Impostor) (v : list Image) : Impostor :=
  mkImpostor (options self) (filenames self) (framesize self)
             (impostorfiles self) (croprect self) (sizes self) (Some v).

(** [Impostor.__init__] *)
Definition Impostor_init (args : Args) : Impostor :=
  mkImpostor args (files args) (width args, height args) [] None None None.

(** Reading a field that holds [None] with a subscript, or an attribute
    that was never set. *)
Definition subscript {A : Type} (o : option A) : result A :=
  match o with Some a => Return a | None => Raise TypeError end.

Definition attribute {A : Type} (o : option A) : result A :=
  match o with Some a => Return a | None => Raise AttributeError end.

(** ** [Impostor.outfilename] *)

Definition slash : ascii := "/"%char.
Definition impostor_prefix : str := list_ascii_of_string "impostor-".
Definition png_suffix : str := list_ascii_of_string ".png".

Definition outfilename (self : Impostor) (name : option str) : result str :=
  s <- match name with
       | None =>
           s <- stringscommon (filenames self) ;;
           s <- attribute s ;;
           let sparts := split slash s in
           last <- getitem sparts (-1) ;;
           sparts <- setitem sparts (-1) (impostor_prefix ++ last) ;;
           Return (join [slash] sparts)
       | Some name => Return name
       end ;;
  Return (s ++ png_suffix).

(** ** [Impostor.calcimpostorsize] *)

Definition calcimpostorsize (self : Impostor) : result (float * float) :=
  sz <- subscript (sizes self) ;;
  mpp0 <- float_div_int (fst (framesize self)) (fst sz) ;;
  mpp1 <- float_div_int (snd (framesize self)) (snd sz) ;;
  cr <- subscript (croprect self) ;;
  let croppedsize := (right cr - left cr, lower cr - upper cr) in
  fs0 <- float_mul_int mpp0 (fst croppedsize) ;;
  fs1 <- float_mul_int mpp1 (snd croppedsize) ;;
  Return (fs0, fs1).

(** ** [Impostor.uniformcrop] *)

(** The literal [0.05]: the binary64 value nearest to one twentieth,
    [0x1.999999999999ap-5]. *)
Definition MAXALLOWEDSIZEMISMATCH : float :=
  S754_finite false 7205759403792794 (-57).

(** One test of the size check: [(m - v) / m > MAXALLOWEDSIZEMISMATCH]. *)
Definition mismatch (m v : Z) : result bool :=
  q <- int_truediv (m - v) m ;;
  Return (float_gt q MAXALLOWEDSIZEMISMATCH).

(** The [for s in sizes] loop; [false] is its [return False], [true] is
    falling through. The [or] evaluates its right side only when the left
    one is false. *)
Fixpoint sizecheck (maxwidth maxheight : Z) (sizes : list (Z * Z)) : result bool :=
  match sizes with
  | [] => Return true
  | s :: rest =>
      c0 <- mismatch maxwidth (fst s) ;;
      c <- (if c0 then Return true else mismatch maxheight (snd s)) ;;
      if c then Return false else sizecheck maxwidth maxheight rest
  end.

(** The rectangle of lines 129 to 137. *)
Definition computecroprect (maxwidth : Z) (bboxes : list rect) : result rect :=
  w0 <- min (map left bboxes) ;;
  w1 <- min (map upper bboxes) ;;
  w2 <- max (map right bboxes) ;;
  w3 <- max (map lower bboxes) ;;
  half <- int_truediv maxwidth 2 ;;
  xcenter <- int_of_float half ;;
  let xleftsize := Z.max 0 (xcenter - w0) in
  let xrightsize := Z.min maxwidth (w2 - xcenter) in
  let xhalfsize := Z.max xleftsize xrightsize in
  Return (xcenter - xhalfsize, w1, xcenter + xhalfsize, w3).

(** The returned boolean is the method's result; the object is returned
    with it, as the method has left it. *)
Definition uniformcrop (self : Impostor) : result (bool * Impostor) :=
  let bboxes := map croppedbbox (impostorfiles self) in
  let sizes := map (fun impf => size (croppedimage impf)) (impostorfiles self) in
  maxwidth <- max (map fst sizes) ;;
  maxheight <- max (map snd sizes) ;;
  ok <- sizecheck maxwidth maxheight sizes ;;
  if negb ok then Return (false, self)
  else
    let self := set_sizes self (maxwidth, maxheight) in
    cr <- computecroprect maxwidth bboxes ;;
    let self := set_croprect self cr in
    let croppedimages :=
      map (fun impf => crop (croppedimage impf) cr) (impostorfiles self) in
    Return (true, set_croppedimages self croppedimages).

(** ** [Impostor.generateimpostor], [readfiles], [processfiles], [main]

    These call into code that is not part of the file: Pillow's
    [Image.resize] with the Lanczos filter, and the class
    [impostorfile.ImpostorFile]. Both are parameters here. *)

Section Collaborators.

(** [im.resize(size, PIL.Image.LANCZOS)] *)
Variable resize : Image -> Z * Z -> result Image.

(** An [ImpostorFile] object between its [readimage] and its
    [extract]. *)
Variable RawFile : Type.

(** [impostorfile.ImpostorFile(self, name)] followed by [readimage()]. *)
Variable ImpostorFile_readimage : Impostor -> str -> result RawFile.

(** [impf.extract()]: [None] when it returns a false value, else the
    object with its [croppedbbox] and [croppedimage]. *)
Variable ImpostorFile_extract : RawFile -> result (option ImpostorFile).

(** [PIL.Image.new] refuses a negative width or height. *)
Definition Image_new (sz : Z * Z) : result Image :=
  if (fst sz <? 0) || (snd sz <? 0) then Raise ValueError
  else Return (new sz).

(** The [for n in range(cnt)] loop, over the indices left. *)
Fixpoint generateimpostor_loop (imgs : list Image) (imagesize : Z * Z)
         (ns : list nat) (composite : Image) : result Image :=
  match ns with
  | [] => Return composite
  | n :: ns' =>
      im <- getitem imgs (Z.of_nat n) ;;
      resized <- resize im imagesize ;;
      generateimpostor_loop imgs imagesize ns'
        (paste composite resized (0, snd imagesize * Z.of_nat n))
  end.

Definition generateimpostor (self : Impostor) (imagesize : Z * Z) : result Image :=
  imgs <- attribute (croppedimages self) ;;
  let cnt := length imgs in
  composite <- Image_new (fst imagesize, snd imagesize * Z.of_nat cnt) ;;
  generateimpostor_loop imgs imagesize (seq 0 cnt) composite.

(** [self.impostorfiles] holds the objects before and after [extract];
    here the objects not yet extracted are a list of their own. *)
Fixpoint readfiles_loop (self : Impostor) (names : list str) : result (list RawFile) :=
  match names with
  | [] => Return []
  | name :: rest =>
      ifile <- ImpostorFile_readimage self name ;;
      ifiles <- readfiles_loop self rest ;;
      Return (ifile :: ifiles)
  end.

Definition readfiles (self : Impostor) : result (list RawFile) :=
  readfiles_loop self (filenames self).

(** [None] is the [return False]; otherwise the extracted objects. *)
Fixpoint processfiles (raws : list RawFile) : result (option (list ImpostorFile)) :=
  match raws with
  | [] => Return (Some [])
  | impf :: rest =>
      valid <- ImpostorFile_extract impf ;;
      match valid with
      | None => Return None
      | Some f =>
          r <- processfiles rest ;;
          Return (match r with
                  | None => None
                  | Some fs => Some (f :: fs)
                  end)
      end
  end.

(** How a run ends when nothing raises. *)
Inductive outcome : Type :=
| ProcessFilesFailed
| UniformCropFailed
| Saved (outfile : str) (finalimage : Image) (finalsize : float * float).

(** [main], from the namespace that [parseargs] returns. *)
Definition main (args : Args) : result outcome :=
  let imp := Impostor_init args in
  raws <- readfiles imp ;;
  outfile <- outfilename imp None ;;
  valid <- processfiles raws ;;
  match valid with
  | None => Return ProcessFilesFailed
  | Some ifiles =>
      let imp := set_impostorfiles imp ifiles in
      r <- uniformcrop imp ;;
      let '(valid, imp) := r in
      if negb valid then Return UniformCropFailed
      else
        finalimage <- generateimpostor imp (128, 64) ;;
        finalsize <- calcimpostorsize imp ;;
        Return (Saved outfile finalimage finalsize)
  end.

End Collaborators.

(* ================================================================== *)
(** * Notions used to state the properties                             *)
(* ================================================================== *)

(** The cropped sizes and the bounding boxes of the batch, as
    [uniformcrop] collects them. *)
Definition cropped_sizes (self : Impostor) : list (Z * Z) :=
  map (fun impf => size (croppedimage impf)) (impostorfiles self).

Definition bboxes (self : Impostor) : list rect :=
  map croppedbbox (impostorfiles self).

(** Pillow keeps the width and the height of an image in a C [int]. *)
Definition pil_size (s : Z * Z) : Prop :=
  0 <= fst s < 2 ^ 31 /\ 0 <= snd s < 2 ^ 31.

Definition pil_sizes (self : Impostor) : Prop :=
  Forall pil_size (cropped_sizes self).

(** The largest and the smallest item of a list that is not empty. *)
Definition maximum (l : list Z) : Z := fold_right Z.max (hd 0 l) l.
Definition minimum (l : list Z) : Z := fold_right Z.min (hd 0 l) l.

Definition maxWidth (self : Impostor) : Z := maximum (map fst (cropped_sizes self)).
Definition maxHeight (self : Impostor) : Z := maximum (map snd (cropped_sizes self)).

(** [(m - v) / m <= 0.05], in the arithmetic of the program. *)
Definition tolerated (m v : Z) : Prop :=
  exists q, int_truediv (m - v) m = Return q /\
            float_le q MAXALLOWEDSIZEMISMATCH = true.

(** The size check as the program runs it on the batch. *)
Definition validated (self : Impostor) : Prop :=
  (maxwidth <- max (map fst (cropped_sizes self)) ;;
   maxheight <- max (map snd (cropped_sizes self)) ;;
   sizecheck maxwidth maxheight (cropped_sizes self)) = Return true.

(** The shared crop rectangle, in the words of the specification. *)
Definition spec_croprect (maxW : Z) (boxes : list rect) : rect :=
  let wrect := (minimum (map left boxes), minimum (map upper boxes),
                maximum (map right boxes), maximum (map lower boxes)) in
  let xcenter := maxW / 2 in
  let xleftsize := Z.max 0 (xcenter - left wrect) in
  let xrightsize := Z.min maxW (right wrect - xcenter) in
  let xhalfsize := Z.max xleftsize xrightsize in
  (xcenter - xhalfsize, upper wrect, xcenter + xhalfsize, lower wrect).

(** A box lies within a canvas of the given size. *)
Definition within_canvas (w h : Z) (b : rect) : Prop :=
  0 <= left b /\ right b <= w /\ 0 <= upper b /\ lower b <= h.

(** Prefixes, and the longest prefix common to all strings of a list. *)
Definition is_prefix (p s : str) : Prop := exists r, s = p ++ r.

Definition is_longest_common_prefix (p : str) (l : list str) : Prop :=
  Forall (is_prefix p) l /\
  forall p', Forall (is_prefix p') l -> is_prefix p' p.

(** Where an exact quotient lies between two consecutive mantissas: the
    rounding information that [SFdiv] hands to [binary_round_aux]. *)
Definition loc_of (q R : Z) : location :=
  if R =? 0 then loc_Exact else loc_Inexact (2 * R ?= q).

Definition located (l : location) (num den m : Z) : Prop :=
  match l with
  | loc_Exact => num = m * den
  | loc_Inexact Lt => m * den < num /\ 2 * num < (2 * m + 1) * den
  | loc_Inexact Eq => 2 * num = (2 * m + 1) * den
  | loc_Inexact Gt => (2 * m + 1) * den < 2 * num /\ num < (m + 1) * den
  end.

(** Float literals of the examples. *)
Definition float_6_0 : float := S754_finite false 6755399441055744 (-50).
Definition float_3_0 : float := S754_finite false 6755399441055744 (-51).
Definition float_3_72 : float := S754_finite false 8376695306909123 (-51).
Definition float_2_4 : float := S754_finite false 5404319552844595 (-51).

(** [args.rez] replaced. *)
Definition set_rez (args : Args) (v : Z) : Args :=
  mkArgs (width args) (height args) v (faces args) (form args)
         (verbose args) (files args).


(** The object as a successful [uniformcrop] leaves it. *)
Definition cropped_state (self : Impostor) : Impostor :=
  let cr := spec_croprect (maxWidth self) (bboxes self) in
  set_croppedimages
    (set_croprect (set_sizes self (maxWidth self, maxHeight self)) cr)
    (map (fun impf => crop (croppedimage impf) cr) (impostorfiles self)).

(** [20 * (m - v) <= m]: the tolerance test on integers. *)
Definition within_tolerance (m v : Z) : bool := negb (m <? 20 * (m - v)).

Definition size_within_tolerance (mw mh : Z) (s : Z * Z) : bool :=
  within_tolerance mw (fst s) && within_tolerance mh (snd s).


(** ** The inputs of the examples *)

(** A record with the given bounding box, on a canvas of the given
    size. *)
Definition record_on (w h : Z) (bbox : rect) : ImpostorFile :=
  mkImpostorFile bbox (new (w, h)).

Definition batch_of (names : list string) (frame : float * float)
           (records : list ImpostorFile) : Impostor :=
  set_impostorfiles
    (Impostor_init (mkArgs (fst frame) (snd frame) 64
                           (list_ascii_of_string "8")
                           (list_ascii_of_string "STAR") false
                           (map list_ascii_of_string names)))
    records.

(** Three images on a canvas of 200 by 100, frame of 6.0 by 3.0. *)
Definition three_shots : Impostor :=
  batch_of ["/a/shot_01.png"; "/a/shot_02.png"; "/a/shot_03.png"]%string
           (float_6_0, float_3_0)
           [record_on 200 100 (40, 10, 160, 90);
            record_on 200 100 (42, 10, 158, 88);
            record_on 200 100 (38, 12, 162, 90)].

(** One image of odd width whose content reaches both edges. *)
Definition odd_canvas : Impostor :=
  batch_of ["/a/wide.png"]%string (float_6_0, float_3_0)
           [record_on 201 50 (0, 0, 201, 50)].

(** Two images of height zero, the first much narrower than the
    second. *)
Definition flat_batch : Impostor :=
  batch_of ["/a/flat_1.png"; "/a/flat_2.png"]%string (float_6_0, float_3_0)
           [record_on 50 0 (0, 0, 50, 0); record_on 100 0 (0, 0, 100, 0)].

(** One image whose content has no width. *)
Definition thin_batch : Impostor :=
  batch_of ["/a/thin.png"]%string (float_6_0, float_3_0)
           [record_on 200 100 (100, 10, 100, 90)].

(** [float(n)] when it does not overflow. *)
Definition to_float (n : Z) : float := binary_normalize prec emax n 0 false.

(** The common leading part of two strings, by recursion on both. *)
Fixpoint common_prefix (a b : str) : str :=
  match a, b with
  | x :: a', y :: b' => if Ascii.eqb x y then x :: common_prefix a' b' else []
  | _, _ => []
  end.

(** The parts of a split, each followed by the separator. *)
Definition with_separators (sep : ascii) (parts : list str) : str :=
  concat (map (fun part => part ++ [sep]) parts).

(** Two files of the naming scenario. *)
Definition two_shots : Impostor :=
  batch_of ["/a/shot_01.png"; "/a/shot_02.png"]%string (float_6_0, float_3_0) [].

(** [self.options] replaced. *)
Definition set_options (self : Impostor) (v : Args) : Impostor :=
  mkImpostor v (filenames self) (framesize self) (impostorfiles self)
             (croprect self) (sizes self) (croppedimages self).

(** ** Stand-ins for the collaborators, for the examples *)

(** An image of one colour. *)
Definition solid (sz : Z * Z) (colour : pixel) : Image :=
  mkImage sz (fun _ _ => colour).

(** Resizing by taking the nearest source pixel; it refuses an empty
    target, as Pillow does. *)
Definition resize_nearest (im : Image) (sz : Z * Z) : result Image :=
  if (fst sz <=? 0) || (snd sz <=? 0) then Raise ValueError
  else Return (mkImage sz (fun x y =>
                 getpixel im (x * fst (size im) / fst sz)
                             (y * snd (size im) / snd sz))).

(** A reader that keeps the file name, and an extractor that finds the
    same content in every file. *)
Definition read_name (self : Impostor) (name : str) : result str :=
  Return name.

Definition extract_fixed (raw : str) : result (option ImpostorFile) :=
  Return (Some (mkImpostorFile (40, 10, 160, 90) (solid (200, 100) (255, 0, 0, 255)))).

Definition red : pixel := (255, 0, 0, 255).
Definition blue_half : pixel := (0, 0, 255, 128).

(** An object whose two cropped images are a red and a half transparent
    blue one. *)
Definition two_colours : Impostor :=
  set_croppedimages two_shots [solid (124, 80) red; solid (124, 80) blue_half].

(** One input file. *)
Definition one_shot : Impostor :=
  batch_of ["/a/x.png"]%string (float_6_0, float_3_0) [].

(** Three images of the same size. *)
Definition same_size_batch : Impostor :=
  batch_of ["/a/s_1.png"; "/a/s_2.png"; "/a/s_3.png"]%string (float_6_0, float_3_0)
           [record_on 640 480 (10, 20, 600, 400);
            record_on 640 480 (0, 0, 640, 480);
            record_on 640 480 (300, 200, 310, 210)].

(** An image with a gradient, to tell its pixels apart. *)
Definition gradient (sz : Z * Z) : Image :=
  mkImage sz (fun x y => (x, y, 0, 255)).

Definition gradient_batch : Impostor :=
  batch_of ["/a/g_1.png"; "/a/g_2.png"]%string (float_6_0, float_3_0)
           [mkImpostorFile (40, 10, 160, 90) (gradient (200, 100));
            mkImpostorFile (38, 12, 150, 95) (gradient (198, 100))].

(** An extractor that fails on one file name and raises on another. *)
Definition extract_picky (raw : str) : result (option ImpostorFile) :=
  if list_eq_dec ascii_dec raw (list_ascii_of_string "bad") then Return None
  else if list_eq_dec ascii_dec raw (list_ascii_of_string "broken") then Raise OSError
  else Return (Some (record_on 200 100 (40, 10, 160, 90))).

(** A resize that fails on images wider than 1000 pixels. *)
Definition resize_small_only (im : Image) (sz : Z * Z) : result Image :=
  if 1000 <? fst (size im) then Raise ValueError else resize_nearest im sz.

(** The three images of the scenario, in another order. *)
Definition three_shots_reordered : Impostor :=
  batch_of ["/a/shot_03.png"; "/a/shot_01.png"; "/a/shot_02.png"]%string
           (float_6_0, float_3_0)
           [record_on 200 100 (38, 12, 162, 90);
            record_on 200 100 (40, 10, 160, 90);
            record_on 200 100 (42, 10, 158, 88)].

(* ================================================================== *)
(** * Binary64 arithmetic on integers                                  *)
(* ================================================================== *)

Section FloatFacts.

Lemma digits2_pos_bounds (p : positive) :
  2 ^ (Zpos (digits2_pos p) - 1) <= Zpos p < 2 ^ Zpos (digits2_pos p).
Proof.
  induction p as [p IH | p IH |]; cbn [digits2_pos].
  - rewrite Pos2Z.inj_succ.
    replace (Z.succ (Z.pos (digits2_pos p)) - 1) with (Z.succ (Z.pos (digits2_pos p) - 1)) by lia.
    rewrite !Z.pow_succ_r by lia. lia.
  - rewrite Pos2Z.inj_succ.
    replace (Z.succ (Z.pos (digits2_pos p)) - 1) with (Z.succ (Z.pos (digits2_pos p) - 1)) by lia.
    rewrite !Z.pow_succ_r by lia. lia.
  - cbn. lia.
Qed.

Lemma digits2_pos_unique (p : positive) (d : Z) :
  2 ^ (d - 1) <= Zpos p < 2 ^ d -> Zpos (digits2_pos p) = d.
Proof.
  intros [Hlo Hhi].
  pose proof (digits2_pos_bounds p) as [Blo Bhi].
  assert (0 < d).
  { destruct (Z.ltb_spec 0 d); auto. 
    assert (2 ^ d <= 2 ^ 0) by (apply Z.pow_le_mono_r; lia). simpl in *. lia. }
  destruct (Z.lt_trichotomy (Zpos (digits2_pos p)) d) as [L | [E | G]]; auto.
  - assert (2 ^ Zpos (digits2_pos p) <= 2 ^ (d - 1)) by (apply Z.pow_le_mono_r; lia). lia.
  - assert (2 ^ d <= 2 ^ (Zpos (digits2_pos p) - 1)) by (apply Z.pow_le_mono_r; lia). lia.
Qed.

Lemma Zdigits2_mul_pow2 (p : positive) (k : Z) :
  0 <= k -> Zdigits2 (Zpos p * 2 ^ k) = Zpos (digits2_pos p) + k.
Proof.
  intros Hk.
  assert (0 < 2 ^ k) by (apply Z.pow_pos_nonneg; lia).
  destruct (Zpos p * 2 ^ k) as [| q | q] eqn:E; try lia.
  cbn [Zdigits2]. apply digits2_pos_unique.
  pose proof (digits2_pos_bounds p) as [Blo Bhi].
  rewrite <- E.
  replace (Zpos (digits2_pos p) + k - 1) with ((Zpos (digits2_pos p) - 1) + k) by lia.
  rewrite !Z.pow_add_r by lia. nia.
Qed.

(** shr_1 *)
Lemma shr_1_pos (m : Z) (r s : bool) :
  0 < m ->
  shr_1 (Build_shr_record m r s) = Build_shr_record (m / 2) (Z.odd m) (r || s).
Proof.
  intros Hm. destruct m as [| p | p]; try lia.
  destruct p as [p | p |]; cbn [shr_1].
  - f_equal. rewrite Pos2Z.inj_xI. apply Z.div_unique with 1; lia.
  - f_equal. rewrite Pos2Z.inj_xO. apply Z.div_unique with 0; lia.
  - reflexivity.
Qed.

Lemma new_location_loc_of (q R : Z) :
  0 < q -> 0 <= R < q -> new_location q R = loc_of q R.
Proof.
  intros Hq HR. unfold new_location, loc_of, new_location_even, new_location_odd.
  destruct (Z.even q) eqn:Ev; destruct (R =? 0) eqn:E0; auto.
  f_equal.
  assert (Hodd : Z.odd q = true) by (rewrite <- Z.negb_even, Ev; reflexivity).
  apply Z.odd_spec in Hodd. destruct Hodd as [k Hk].
  destruct (2 * R + 1 ?= q) eqn:C1; destruct (2 * R ?= q) eqn:C2; auto;
    rewrite ?Z.compare_eq_iff, ?Z.compare_lt_iff, ?Z.compare_gt_iff in *; lia.
Qed.

Lemma Zdigits2_range (m d : Z) :
  2 ^ (d - 1) <= m < 2 ^ d -> 0 < d -> Zdigits2 m = d.
Proof.
  intros H Hd.
  assert (0 < 2 ^ (d - 1)) by (apply Z.pow_pos_nonneg; lia).
  destruct m as [| p | p]; try lia.
  cbn [Zdigits2]. now apply digits2_pos_unique.
Qed.

Lemma fexp_normal (x : Z) : emin prec emax <= x - 53 -> fexp prec emax x = x - 53.
Proof. unfold fexp, prec. lia. Qed.

Lemma shr_fexp_53 (m e : Z) (l : location) :
  2 ^ 52 <= m < 2 ^ 53 -> emin prec emax <= e ->
  shr_fexp prec emax m e l = (shr_record_of_loc m l, e).
Proof.
  intros Hm He. unfold shr_fexp.
  rewrite (Zdigits2_range m 53) by (simpl; lia).
  rewrite fexp_normal by lia.
  replace (53 + e - 53 - e) with 0 by lia. reflexivity.
Qed.

Lemma shr_fexp_54 (m e : Z) (l : location) :
  2 ^ 53 <= m < 2 ^ 54 -> emin prec emax <= e ->
  shr_fexp prec emax m e l = (shr_1 (shr_record_of_loc m l), e + 1).
Proof.
  intros Hm He. unfold shr_fexp.
  rewrite (Zdigits2_range m 54) by (simpl; lia).
  rewrite fexp_normal by lia.
  replace (54 + e - 53 - e) with 1 by lia. reflexivity.
Qed.

Lemma located_loc_of (Q q R : Z) :
  0 < q -> 0 <= R < q -> located (loc_of q R) (Q * q + R) q Q.
Proof.
  intros Hq HR. unfold loc_of.
  destruct (Z.eqb_spec R 0) as [-> | Hne]; cbn [located]; [lia |].
  destruct (Z.compare_spec (2 * R) q); cbn [located]; lia.
Qed.

Lemma shr_record_of_loc_inv (m : Z) (l : location) :
  shr_m (shr_record_of_loc m l) = m /\
  loc_of_shr_record (shr_record_of_loc m l) = l.
Proof. destruct l as [| []]; split; reflexivity. Qed.

Lemma located_shr_1 (l : location) (num den m : Z) :
  0 < m -> 0 < den -> located l num den m ->
  shr_m (shr_1 (shr_record_of_loc m l)) = m / 2 /\
  located (loc_of_shr_record (shr_1 (shr_record_of_loc m l))) num (2 * den) (m / 2).
Proof.
  intros Hm Hden Hl.
  pose proof (Z.div_mod m 2 ltac:(lia)) as Hdm.
  pose proof (Z.mod_pos_bound m 2 ltac:(lia)) as Hb.
  assert (Hodd : Z.odd m = (m mod 2 =? 1)).
  { rewrite Zmod_odd. destruct (Z.odd m); reflexivity. }
  destruct l as [| []]; cbn [shr_record_of_loc]; rewrite shr_1_pos by assumption;
    cbn [shr_m orb]; (split; [reflexivity |]); rewrite Hodd;
    destruct (Z.eqb_spec (m mod 2) 1) as [E | E];
    cbn [loc_of_shr_record located] in *; nia.
Qed.

Lemma round_stage2 (l : location) (num den m e : Z) :
  2 ^ 52 <= m < 2 ^ 53 -> 0 < den -> located l num den m ->
  emin prec emax <= e -> e + 1 <= emax - prec ->
  exists (M : positive) (k : Z),
    (let '(mrs, e') := shr_fexp prec emax (round_nearest_even m l) e loc_Exact in
     match shr_m mrs with
     | Z0 => S754_zero false
     | Zpos m' => if e' <=? emax - prec then S754_finite false m' e'
                  else S754_infinity false
     | Zneg _ => S754_nan
     end) = S754_finite false M (e + k) /\
    0 <= k <= 1 /\ 2 ^ 52 <= Zpos M < 2 ^ 53 /\
    2 * Z.abs (Zpos M * 2 ^ k * den - num) <= den * 2 ^ k.
Proof.
  intros Hm Hden Hl He He'.
  assert (Hr : round_nearest_even m l = m \/ round_nearest_even m l = m + 1).
  { destruct l as [| []]; cbn; auto. destruct (Z.even m); auto. }
  assert (Hnear : 2 * Z.abs (round_nearest_even m l * den - num) <= den).
  { destruct l as [| []]; cbn [round_nearest_even located] in *;
      try destruct (Z.even m); nia. }
  set (m1 := round_nearest_even m l) in *.
  destruct (Z.ltb_spec m1 (2 ^ 53)) as [Hlt | Hge].
  - rewrite shr_fexp_53 by lia. cbn [shr_record_of_loc shr_m].
    destruct m1 as [| M |] eqn:EM; try lia.
    exists M, 0. rewrite Z.add_0_r.
    replace (e <=? emax - prec) with true by (symmetry; apply Z.leb_le; lia).
    repeat split; try lia; try (rewrite Z.pow_0_r; lia).
  - assert (Em1 : m1 = 2 ^ 53) by lia.
    rewrite shr_fexp_54 by lia. cbn [shr_record_of_loc].
    rewrite shr_1_pos by lia. cbn [shr_m]. rewrite Em1.
    change (2 ^ 53 / 2) with (Zpos (2 ^ 52)).
    exists (2 ^ 52)%positive, 1.
    replace (e + 1 <=? emax - prec) with true by (symmetry; apply Z.leb_le; lia).
    rewrite Em1 in Hnear. change (2 ^ 1) with 2.
    change (Zpos (2 ^ 52)) with (2 ^ 52). change (2 ^ 53) with (2 ^ 52 * 2) in *.
    repeat split; lia.
Qed.

Lemma binary_round_aux_nearest (Q e q R : Z) :
  2 ^ 52 <= Q < 2 ^ 54 -> emin prec emax <= e -> e + 2 <= emax - prec ->
  0 < q -> 0 <= R < q ->
  exists (M : positive) (k : Z),
    binary_round_aux prec emax false Q e (loc_of q R) = S754_finite false M (e + k) /\
    0 <= k <= 2 /\ 2 ^ 52 <= Zpos M < 2 ^ 53 /\
    2 * Z.abs (Zpos M * 2 ^ k * q - (Q * q + R)) <= q * 2 ^ k.
Proof.
  intros HQ He He' Hq HR. unfold binary_round_aux.
  pose proof (located_loc_of Q q R Hq HR) as Hloc.
  destruct (Z.ltb_spec Q (2 ^ 53)) as [Hlt | Hge].
  - rewrite shr_fexp_53 by lia.
    destruct (shr_record_of_loc_inv Q (loc_of q R)) as [-> ->].
    destruct (round_stage2 _ _ _ Q e ltac:(lia) Hq Hloc He ltac:(lia))
      as (M & k & Heq & Hk & HM & Hn).
    exists M, k. repeat split; try lia. exact Heq.
  - rewrite shr_fexp_54 by lia.
    destruct (located_shr_1 _ _ _ Q ltac:(lia) Hq Hloc) as [-> Hloc'].
    assert (HQ2 : 2 ^ 52 <= Q / 2 < 2 ^ 53).
    { pose proof (Z.div_mod Q 2 ltac:(lia)).
      pose proof (Z.mod_pos_bound Q 2 ltac:(lia)). lia. }
    destruct (round_stage2 _ (Q * q + R) (2 * q) (Q / 2) (e + 1) HQ2 ltac:(lia) Hloc'
                ltac:(lia) ltac:(lia))
      as (M & k & Heq & Hk & HM & Hn).
    exists M, (k + 1). replace (e + (k + 1)) with (e + 1 + k) by lia.
    repeat split; try lia; [exact Heq |].
    rewrite Z.pow_add_r by lia. change (2 ^ 1) with 2. lia.
Qed.

Lemma SFdiv_core_int (p q : positive) :
  let s := 53 + Zpos (digits2_pos q) - Zpos (digits2_pos p) in
  Zpos (digits2_pos q) - Zpos (digits2_pos p) <= 1021 ->
  -52 <= Zpos (digits2_pos q) - Zpos (digits2_pos p)  ->
  SFdiv_core_binary prec emax (Zpos p) 0 (Zpos q) 0 =
  ((Zpos p * 2 ^ s) / Zpos q, - s, loc_of (Zpos q) ((Zpos p * 2 ^ s) mod Zpos q)).
Proof.
  intros s Hd Hd'. unfold SFdiv_core_binary. cbn [Zdigits2].
  rewrite !Z.add_0_r, Z.sub_0_r.
  rewrite fexp_normal by (unfold emin, prec, emax; lia).
  replace (Z.min (Zpos (digits2_pos p) - Zpos (digits2_pos q) - 53) 0) with (- s)
    by (subst s; lia).
  replace (0 - - s) with s by lia.
  destruct s as [| s' | s'] eqn:Es; try lia.
  rewrite Z.shiftl_mul_pow2 by lia.
  unfold Z.div, Z.modulo.
  destruct (Z.div_eucl (Zpos p * 2 ^ Zpos s') (Zpos q)) as [q0 r0] eqn:E.
  f_equal. apply new_location_loc_of; [lia |].
  pose proof (Z.mod_pos_bound (Zpos p * 2 ^ Zpos s') (Zpos q) ltac:(lia)) as Hb.
  unfold Z.modulo in Hb. rewrite E in Hb. exact Hb.
Qed.

Lemma pow2_lt_inv (a b : Z) : 0 <= b -> 2 ^ a < 2 ^ b -> a < b.
Proof.
  intros Hb H. destruct (Z.lt_ge_cases a b) as [L | G]; auto.
  assert (2 ^ b <= 2 ^ a) by (apply Z.pow_le_mono_r; lia). lia.
Qed.

Lemma SFdiv_int_nearest (p q : positive) :
  Zpos q < 2 ^ 1000 -> Zpos p < 2 ^ 51 * Zpos q ->
  exists (M : positive) (t : Z),
    SFdiv prec emax (S754_finite false p 0) (S754_finite false q 0)
    = S754_finite false M (- t) /\
    0 <= t /\ 2 ^ 52 <= Zpos M < 2 ^ 53 /\
    2 * Z.abs (Zpos M * Zpos q - Zpos p * 2 ^ t) <= Zpos q.
Proof.
  intros Hq Hpq.
  pose proof (digits2_pos_bounds p) as [Hp1 Hp2].
  pose proof (digits2_pos_bounds q) as [Hq1 Hq2].
  set (d1 := Zpos (digits2_pos p)) in *.
  set (d2 := Zpos (digits2_pos q)) in *.
  assert (Hd1 : 1 <= d1) by (subst d1; lia).
  assert (Hd2 : 1 <= d2) by (subst d2; lia).
  assert (Hd2' : d2 <= 1000).
  { assert (d2 - 1 < 1000) by (apply pow2_lt_inv; lia). lia. }
  assert (Hd12 : d1 <= d2 + 51).
  { assert (d1 - 1 < 51 + d2).
    { apply pow2_lt_inv; [lia |]. rewrite Z.pow_add_r by lia. nia. }
    lia. }
  set (s := 53 + d2 - d1).
  assert (Hs : 2 <= s) by (subst s; lia).
  unfold SFdiv. rewrite SFdiv_core_int by (fold d1 d2; lia).
  fold d1 d2 s. cbn [xorb].
  pose proof (Z.div_mod (Zpos p * 2 ^ s) (Zpos q) ltac:(lia)) as Hdm.
  pose proof (Z.mod_pos_bound (Zpos p * 2 ^ s) (Zpos q) ltac:(lia)) as HR.
  set (Q := Zpos p * 2 ^ s / Zpos q) in *.
  set (R := (Zpos p * 2 ^ s) mod Zpos q) in *.
  assert (Hlow : 2 ^ 52 * 2 ^ d2 <= Zpos p * 2 ^ s).
  { rewrite <- Z.pow_add_r by lia. replace (52 + d2) with ((d1 - 1) + s) by (subst s; lia).
    rewrite Z.pow_add_r by lia. apply Z.mul_le_mono_nonneg_r; [apply Z.pow_nonneg |]; lia. }
  assert (Hhigh : Zpos p * 2 ^ s < 2 ^ 54 * 2 ^ (d2 - 1)).
  { rewrite <- (Z.pow_add_r 2 54) by lia. replace (54 + (d2 - 1)) with (d1 + s) by (subst s; lia).
    rewrite Z.pow_add_r by lia. apply Z.mul_lt_mono_pos_r; [apply Z.pow_pos_nonneg |]; lia. }
  assert (HQ : 2 ^ 52 <= Q < 2 ^ 54) by nia.
  destruct (binary_round_aux_nearest Q (- s) (Zpos q) R HQ)
    as (M & k & Heq & Hk & HM & Hn);
    try (unfold emin, emax, prec; lia).
  exists M, (s - k). replace (- (s - k)) with (- s + k) by lia.
  split; [exact Heq |]. repeat split; try lia.
  assert (Hpow : 2 ^ s = 2 ^ (s - k) * 2 ^ k).
  { rewrite <- Z.pow_add_r by lia. f_equal. lia. }
  assert (0 < 2 ^ k) by (apply Z.pow_pos_nonneg; lia).
  replace (Q * Zpos q + R) with (Zpos p * (2 ^ (s - k) * 2 ^ k)) in Hn
    by (rewrite <- Hpow; lia).
  replace (Zpos M * 2 ^ k * Zpos q - Zpos p * (2 ^ (s - k) * 2 ^ k))
    with ((Zpos M * Zpos q - Zpos p * 2 ^ (s - k)) * 2 ^ k) in Hn by ring.
  rewrite Z.abs_mul, (Z.abs_eq (2 ^ k)) in Hn by lia. nia.
Qed.

Lemma int_truediv_pos (p q : positive) :
  Zpos q < 2 ^ 1000 -> Zpos p < 2 ^ 51 * Zpos q ->
  exists (M : positive) (t : Z),
    int_truediv (Zpos p) (Zpos q) = Return (S754_finite false M (- t)) /\
    0 <= t /\ 2 ^ 52 <= Zpos M < 2 ^ 53 /\
    2 * Z.abs (Zpos M * Zpos q - Zpos p * 2 ^ t) <= Zpos q.
Proof.
  intros Hq Hpq.
  destruct (SFdiv_int_nearest p q Hq Hpq) as (M & t & Heq & Ht & HM & Hn).
  exists M, t. unfold int_truediv. cbn [Z.eqb exact_int]. rewrite Heq. auto.
Qed.

Lemma halve_exact (n : Z) :
  0 <= n < 2 ^ 52 ->
  (half <- int_truediv n 2 ;; int_of_float half) = Return (n / 2).
Proof.
  intros Hn. destruct n as [| p | p]; try lia; [reflexivity |].
  destruct (int_truediv_pos p 2) as (M & t & Heq & Ht & HM & Hnear); try lia.
  rewrite Heq. cbn [bind int_of_float cond_Zopp].
  destruct t as [| k | k]; try lia.
  cbn [Z.opp]. f_equal. rewrite Z.shiftr_div_pow2 by lia.
    assert (Hpow : 2 ^ Zpos k = 2 * 2 ^ (Zpos k - 1)).
    { rewrite <- Z.pow_succ_r by lia. f_equal. lia. }
    assert (0 < 2 ^ (Zpos k - 1)) by (apply Z.pow_pos_nonneg; lia).
    assert (HMeq : Zpos M = Zpos p * 2 ^ (Zpos k - 1)) by lia.
    rewrite HMeq, Hpow. rewrite Z.div_mul_cancel_r by lia. reflexivity.
Qed.

Lemma float_gt_finite (M L : positive) (e f : Z) :
  float_gt (S754_finite false M e) (S754_finite false L f) = true <->
  f < e \/ (f = e /\ Zpos L < Zpos M).
Proof.
  unfold float_gt, SFltb, SFcompare.
  destruct (Z.compare_spec f e) as [E | Lt' | Gt'].
  - rewrite Pos.compare_cont_spec. cbn [Pos.switch_Eq].
    destruct (Pos.compare_spec L M) as [E' | L' | G'];
      split; intros H; try discriminate; try reflexivity; lia.
  - split; intros H; [lia | reflexivity].
  - split; intros H; [discriminate | lia].
Qed.

Lemma mismatch_tolerance (m v : Z) :
  0 < m < 2 ^ 31 -> 0 <= v <= m ->
  mismatch m v = Return (m <? 20 * (m - v)).
Proof.
  intros Hm Hv. unfold mismatch.
  destruct (m - v) as [| p | p] eqn:Ep; try lia.
  - destruct m as [| q | q]; try lia. reflexivity.
  - destruct m as [| q | q]; try lia.
    destruct (int_truediv_pos p q) as (M & t & Heq & Ht & HM & Hnear); try lia.
    rewrite Heq. cbn [bind]. f_equal. unfold MAXALLOWEDSIZEMISMATCH.
    assert (Hpq : Zpos p <= Zpos q) by lia.
    assert (Hpow : 0 < 2 ^ t) by (apply Z.pow_pos_nonneg; lia).
    change (2 ^ 52) with 4503599627370496 in HM.
    change (2 ^ 53) with 9007199254740992 in HM.
    change (2 ^ 31) with 2147483648 in Hm.
    assert (HMq1 : 4503599627370496 * Zpos q <= Zpos M * Zpos q)
      by (apply Z.mul_le_mono_nonneg_r; lia).
    assert (HMq2 : Zpos M * Zpos q <= 9007199254740992 * Zpos q)
      by (apply Z.mul_le_mono_nonneg_r; lia).
    destruct (Z.ltb_spec (Zpos q) (20 * Zpos p)) as [Hlt | Hge].
    + (* out of tolerance: the quotient is above the literal *)
      apply float_gt_finite.
      destruct (Z.lt_trichotomy t 57) as [L | [E | G]]; [left; lia | right | exfalso].
      * subst t. split; [reflexivity |].
        change (2 ^ 57) with 144115188075855872 in *.
        destruct (Z.lt_ge_cases 7205759403792794 (Zpos M)) as [? | HLM]; [assumption | exfalso].
        assert (Zpos M * Zpos q <= 7205759403792794 * Zpos q)
          by (apply Z.mul_le_mono_nonneg_r; lia).
        lia.
      * assert (2 ^ 58 <= 2 ^ t) by (apply Z.pow_le_mono_r; lia).
        change (2 ^ 58) with 288230376151711744 in *.
        assert (Zpos q * 288230376151711744 <= Zpos q * 2 ^ t)
          by (apply Z.mul_le_mono_nonneg_l; lia).
        assert (Zpos q * 2 ^ t < (20 * Zpos p) * 2 ^ t)
          by (apply Z.mul_lt_mono_pos_r; lia).
        lia.
    + apply not_true_is_false. intros Hgt. apply float_gt_finite in Hgt.
      destruct Hgt as [L | [E L]].
      * assert (2 ^ t <= 2 ^ 56) by (apply Z.pow_le_mono_r; lia).
        change (2 ^ 56) with 72057594037927936 in *.
        assert (Zpos p * 2 ^ t <= Zpos p * 72057594037927936)
          by (apply Z.mul_le_mono_nonneg_l; lia).
        lia.
      * assert (t = 57) by lia. subst t.
        change (2 ^ 57) with 144115188075855872 in *.
        assert (7205759403792795 * Zpos q <= Zpos M * Zpos q)
          by (apply Z.mul_le_mono_nonneg_r; lia).
        lia.
Qed.

End FloatFacts.
(* ================================================================== *)
(** * Lists: [min], [max]                                              *)
(* ================================================================== *)

Section MinMax.

Lemma fold_right_max_shift (a y : Z) (t : list Z) :
  fold_right Z.max (Z.max a y) t = Z.max y (fold_right Z.max a t).
Proof. induction t as [| z t IH]; cbn; lia. Qed.

Lemma fold_right_min_shift (a y : Z) (t : list Z) :
  fold_right Z.min (Z.min a y) t = Z.min y (fold_right Z.min a t).
Proof. induction t as [| z t IH]; cbn; lia. Qed.

Lemma fold_left_max (t : list Z) (a : Z) :
  fold_left (fun m item => if m <? item then item else m) t a
  = fold_right Z.max a t.
Proof.
  revert a. induction t as [| y t IH]; intros a; cbn; [reflexivity |].
  rewrite IH. destruct (Z.ltb_spec a y).
  - replace y with (Z.max a y) at 1 by lia. apply fold_right_max_shift.
  - replace a with (Z.max a y) at 1 by lia. apply fold_right_max_shift.
Qed.

Lemma fold_left_min (t : list Z) (a : Z) :
  fold_left (fun m item => if item <? m then item else m) t a
  = fold_right Z.min a t.
Proof.
  revert a. induction t as [| y t IH]; intros a; cbn; [reflexivity |].
  rewrite IH. destruct (Z.ltb_spec y a).
  - replace y with (Z.min a y) at 1 by lia. apply fold_right_min_shift.
  - replace a with (Z.min a y) at 1 by lia. apply fold_right_min_shift.
Qed.

Lemma fold_right_max_bounds (a : Z) (t : list Z) :
  a <= fold_right Z.max a t /\
  Forall (fun x => x <= fold_right Z.max a t) t /\
  (fold_right Z.max a t = a \/ In (fold_right Z.max a t) t).
Proof.
  induction t as [| y t (IH1 & IH2 & IH3)]; cbn.
  - repeat split; auto || lia.
  - split; [lia |]. split.
    + constructor; [lia |]. eapply Forall_impl; [| exact IH2]. cbn. intros; lia.
    + destruct (Z.max_spec y (fold_right Z.max a t)) as [[_ ->] | [_ ->]]; tauto.
Qed.

Lemma fold_right_min_bounds (a : Z) (t : list Z) :
  fold_right Z.min a t <= a /\
  Forall (fun x => fold_right Z.min a t <= x) t /\
  (fold_right Z.min a t = a \/ In (fold_right Z.min a t) t).
Proof.
  induction t as [| y t (IH1 & IH2 & IH3)]; cbn.
  - repeat split; auto || lia.
  - split; [lia |]. split.
    + constructor; [lia |]. eapply Forall_impl; [| exact IH2]. cbn. intros; lia.
    + destruct (Z.min_spec y (fold_right Z.min a t)) as [[_ ->] | [_ ->]]; tauto.
Qed.

Lemma maximum_spec (l : list Z) :
  l <> [] -> In (maximum l) l /\ Forall (fun x => x <= maximum l) l.
Proof.
  destruct l as [| x t]; [congruence | intros _].
  unfold maximum. cbn [hd].
  destruct (fold_right_max_bounds x (x :: t)) as (H1 & H2 & [H3 | H3]); auto.
  split; [rewrite H3; now left | exact H2].
Qed.

Lemma minimum_spec (l : list Z) :
  l <> [] -> In (minimum l) l /\ Forall (fun x => minimum l <= x) l.
Proof.
  destruct l as [| x t]; [congruence | intros _].
  unfold minimum. cbn [hd].
  destruct (fold_right_min_bounds x (x :: t)) as (H1 & H2 & [H3 | H3]); auto.
  split; [rewrite H3; now left | exact H2].
Qed.

Lemma max_maximum (l : list Z) : l <> [] -> max l = Return (maximum l).
Proof.
  destruct l as [| x t]; [congruence | intros _].
  unfold max, max_by, maximum. rewrite fold_left_max. cbn [hd fold_right].
  f_equal. destruct (fold_right_max_bounds x t) as (H & _). lia.
Qed.

Lemma min_minimum (l : list Z) : l <> [] -> min l = Return (minimum l).
Proof.
  destruct l as [| x t]; [congruence | intros _].
  unfold min, min_by, minimum. rewrite fold_left_min. cbn [hd fold_right].
  f_equal. destruct (fold_right_min_bounds x t) as (H & _). lia.
Qed.

Lemma max_empty : max [] = Raise ValueError.
Proof. reflexivity. Qed.

End MinMax.

(* ================================================================== *)
(** * The size check                                                   *)
(* ================================================================== *)

Section SizeCheck.

Lemma float_le_not_gt (x y : float) :
  is_finite x = true -> is_finite y = true ->
  float_le x y = negb (float_gt x y).
Proof.
  intros Hx Hy. unfold float_le, float_gt, SFleb, SFltb.
  destruct x as [sx | sx | | sx mx ex], y as [sy | sy | | sy my ey];
    try discriminate; cbn [SFcompare];
    try (destruct sx; reflexivity); try (destruct sy; reflexivity).
  rewrite !Pos.compare_cont_spec. cbn [Pos.switch_Eq].
  rewrite (Z.compare_antisym ex ey), (Pos.compare_antisym mx my).
  destruct sx, sy; try reflexivity;
    destruct (ex ?= ey); cbn [CompOpp]; try reflexivity;
    destruct (mx ?= my)%positive; reflexivity.
Qed.

Lemma mismatch_zero (v : Z) : mismatch 0 v = Raise ZeroDivisionError.
Proof. reflexivity. Qed.

(** The quotient of the test is a finite float, and the test is the
    comparison of integers [m < 20 * (m - v)]. *)
Lemma int_truediv_ratio (m v : Z) :
  0 < m < 2 ^ 31 -> 0 <= v <= m ->
  exists q, int_truediv (m - v) m = Return q /\ is_finite q = true /\
            float_gt q MAXALLOWEDSIZEMISMATCH = (m <? 20 * (m - v)).
Proof.
  intros Hm Hv. pose proof (mismatch_tolerance m v Hm Hv) as Hmis.
  unfold mismatch in Hmis.
  destruct (m - v) as [| p | p] eqn:Ep; try lia.
  - destruct m as [| q | q]; try lia.
    exists (S754_zero false). repeat split; reflexivity.
  - destruct m as [| q | q]; try lia.
    destruct (int_truediv_pos p q) as (M & t & Heq & _); try lia.
    rewrite Heq in Hmis |- *. cbn [bind] in Hmis.
    eexists. repeat split. congruence.
Qed.

Lemma tolerated_iff (m v : Z) :
  0 < m < 2 ^ 31 -> 0 <= v <= m ->
  tolerated m v <-> 20 * (m - v) <= m.
Proof.
  intros Hm Hv.
  destruct (int_truediv_ratio m v Hm Hv) as (q & Hq & Hfin & Hgt).
  unfold tolerated. rewrite Hq. split.
  - intros (q' & Heq & Hle). injection Heq as <-.
    rewrite float_le_not_gt, Hgt in Hle by (assumption || reflexivity).
    apply negb_true_iff, Z.ltb_ge in Hle. exact Hle.
  - intros H. exists q. split; [reflexivity |].
    rewrite float_le_not_gt, Hgt by (assumption || reflexivity).
    apply negb_true_iff, Z.ltb_ge. exact H.
Qed.

Lemma within_tolerance_iff (m v : Z) :
  within_tolerance m v = true <-> 20 * (m - v) <= m.
Proof. unfold within_tolerance. rewrite negb_true_iff, Z.ltb_ge. tauto. Qed.

Lemma sizecheck_positive (mw mh : Z) (l : list (Z * Z)) :
  0 < mw < 2 ^ 31 -> 0 < mh < 2 ^ 31 ->
  Forall (fun s => 0 <= fst s <= mw /\ 0 <= snd s <= mh) l ->
  sizecheck mw mh l = Return (forallb (size_within_tolerance mw mh) l).
Proof.
  intros Hw Hh. induction 1 as [| s l [Hs1 Hs2] _ IH]; [reflexivity |].
  cbn [sizecheck forallb].
  rewrite (mismatch_tolerance mw (fst s)) by assumption. cbn [bind].
  unfold size_within_tolerance at 1, within_tolerance.
  destruct (mw <? 20 * (mw - fst s)); cbn [bind negb andb]; [reflexivity |].
  rewrite (mismatch_tolerance mh (snd s)) by assumption. cbn [bind].
  destruct (mh <? 20 * (mh - snd s)); cbn [negb andb]; [reflexivity | exact IH].
Qed.


Lemma sizecheck_zero_height (mw : Z) (s : Z * Z) (l : list (Z * Z)) :
  0 < mw < 2 ^ 31 -> 0 <= fst s <= mw ->
  sizecheck mw 0 (s :: l) =
  if mw <? 20 * (mw - fst s) then Return false else Raise ZeroDivisionError.
Proof.
  intros Hw Hs. cbn [sizecheck].
  rewrite (mismatch_tolerance mw (fst s)) by assumption. cbn [bind].
  destruct (mw <? 20 * (mw - fst s)); reflexivity.
Qed.

End SizeCheck.

(* ================================================================== *)
(** * [uniformcrop]                                                    *)
(* ================================================================== *)

Section UniformCrop.

Lemma cropped_sizes_nonempty (self : Impostor) :
  impostorfiles self <> [] -> cropped_sizes self <> [].
Proof. unfold cropped_sizes. destruct (impostorfiles self); cbn; congruence. Qed.

Lemma map_nonempty {A B : Type} (f : A -> B) (l : list A) :
  l <> [] -> map f l <> [].
Proof. destruct l; cbn; congruence. Qed.

Lemma batch_bounds (self : Impostor) :
  impostorfiles self <> [] -> pil_sizes self ->
  0 <= maxWidth self < 2 ^ 31 /\ 0 <= maxHeight self < 2 ^ 31 /\
  Forall (fun s => 0 <= fst s <= maxWidth self /\ 0 <= snd s <= maxHeight self)
         (cropped_sizes self).
Proof.
  intros Hne Hpil. apply cropped_sizes_nonempty in Hne.
  unfold pil_sizes in Hpil. rewrite Forall_forall in Hpil.
  destruct (maximum_spec (map fst (cropped_sizes self)) (map_nonempty _ _ Hne))
    as [Hin1 Hall1].
  destruct (maximum_spec (map snd (cropped_sizes self)) (map_nonempty _ _ Hne))
    as [Hin2 Hall2].
  fold (maxWidth self) in Hin1, Hall1. fold (maxHeight self) in Hin2, Hall2.
  apply in_map_iff in Hin1 as (s1 & E1 & Hs1).
  apply in_map_iff in Hin2 as (s2 & E2 & Hs2).
  rewrite Forall_forall in Hall1, Hall2.
  repeat split; try (rewrite <- E1; apply (Hpil s1 Hs1));
    try (rewrite <- E2; apply (Hpil s2 Hs2)).
  apply Forall_forall. intros s Hs.
  pose proof (Hpil s Hs) as [? ?].
  pose proof (Hall1 (fst s) (in_map fst _ _ Hs)).
  pose proof (Hall2 (snd s) (in_map snd _ _ Hs)). lia.
Qed.

Lemma computecroprect_spec (mw : Z) (boxes : list rect) :
  boxes <> [] -> 0 <= mw < 2 ^ 52 ->
  computecroprect mw boxes = Return (spec_croprect mw boxes).
Proof.
  intros Hne Hmw. unfold computecroprect.
  rewrite !min_minimum, !max_maximum by now apply map_nonempty.
  cbn [bind].
  pose proof (halve_exact mw Hmw) as Hhalf.
  destruct (int_truediv mw 2) as [half | e]; cbn [bind] in Hhalf |- *;
    [| discriminate].
  rewrite Hhalf. reflexivity.
Qed.

(** What [uniformcrop] does on a batch that is not empty: the size check
    decides between leaving the object as it is and the cropped state. *)
Lemma uniformcrop_spec (self : Impostor) :
  impostorfiles self <> [] -> pil_sizes self ->
  uniformcrop self =
  (ok <- sizecheck (maxWidth self) (maxHeight self) (cropped_sizes self) ;;
   Return (if ok then (true, cropped_state self) else (false, self))).
Proof.
  intros Hne Hpil.
  destruct (batch_bounds self Hne Hpil) as (Hw & Hh & _).
  unfold uniformcrop. fold (cropped_sizes self).
  rewrite !max_maximum by (apply map_nonempty; now apply cropped_sizes_nonempty).
  cbn [bind]. fold (maxWidth self) (maxHeight self).
  destruct (sizecheck (maxWidth self) (maxHeight self) (cropped_sizes self))
    as [[|] | e]; cbn [bind negb]; try reflexivity.
  rewrite computecroprect_spec; [reflexivity | now apply map_nonempty |].
  change (2 ^ 52) with 4503599627370496. change (2 ^ 31) with 2147483648 in Hw. lia.
Qed.

Lemma uniformcrop_empty (self : Impostor) :
  impostorfiles self = [] -> uniformcrop self = Raise ValueError.
Proof. intros H. unfold uniformcrop. rewrite H. reflexivity. Qed.

Lemma validated_sizecheck (self : Impostor) :
  impostorfiles self <> [] ->
  validated self <->
  sizecheck (maxWidth self) (maxHeight self) (cropped_sizes self) = Return true.
Proof.
  intros Hne. unfold validated.
  rewrite !max_maximum by (apply map_nonempty; now apply cropped_sizes_nonempty).
  cbn [bind]. tauto.
Qed.

End UniformCrop.

(* ================================================================== *)
(** * Converting integers to floats                                    *)
(* ================================================================== *)

Section IntToFloat.

Lemma binary_round_aux_canonical (s : bool) (m : positive) (e : Z) :
  2 ^ 52 <= Zpos m < 2 ^ 53 -> emin prec emax <= e <= emax - prec ->
  binary_round_aux prec emax s (Zpos m) e loc_Exact = S754_finite s m e.
Proof.
  intros Hm He. unfold binary_round_aux.
  rewrite shr_fexp_53 by lia.
  cbn [shr_record_of_loc shr_m loc_of_shr_record round_nearest_even].
  rewrite shr_fexp_53 by lia. cbn [shr_record_of_loc shr_m].
  replace (e <=? emax - prec) with true by (symmetry; apply Z.leb_le; lia).
  reflexivity.
Qed.

Lemma pos_iter_xO (p k : positive) :
  Zpos (Pos.iter xO p k) = Zpos p * 2 ^ Zpos k.
Proof.
  induction k as [| k IH] using Pos.peano_ind.
  - cbn. lia.
  - rewrite Pos.iter_succ, Pos2Z.inj_xO, IH, Pos2Z.inj_succ, Z.pow_succ_r by lia.
    ring.
Qed.

Lemma binary_round_small (s : bool) (p : positive) :
  Zpos p < 2 ^ 53 ->
  exists M e, binary_round prec emax s p 0 = S754_finite s M e.
Proof.
  intros Hp. unfold binary_round.
  pose proof (digits2_pos_bounds p) as [Hlo Hhi].
  set (d := Zpos (digits2_pos p)) in *.
  assert (Hd : 1 <= d <= 53).
  { split; [subst d; lia |].
    assert (d - 1 < 53) by (apply pow2_lt_inv; lia). lia. }
  rewrite Z.add_0_r, fexp_normal by (unfold emin, emax, prec; lia).
  unfold shl_align. rewrite Z.sub_0_r.
  destruct (d - 53) as [| k | k] eqn:Ek; try lia.
  - assert (d = 53) by lia.
    rewrite binary_round_aux_canonical; eauto.
    + replace (53 - 1) with 52 in Hlo by lia. subst d. rewrite H in Hlo, Hhi. lia.
    + unfold emin, emax, prec. lia.
  - rewrite binary_round_aux_canonical; eauto.
    + rewrite pos_iter_xO.
      assert (Ek' : Zpos k = 53 - d) by lia. rewrite Ek'.
      split.
      * replace 52 with ((d - 1) + (53 - d)) by lia.
        rewrite Z.pow_add_r by lia.
        apply Z.mul_le_mono_nonneg_r; [apply Z.pow_nonneg |]; lia.
      * replace 53 with (d + (53 - d)) at 2 by lia.
        rewrite Z.pow_add_r by lia.
        apply Z.mul_lt_mono_pos_r; [apply Z.pow_pos_nonneg |]; lia.
    + unfold emin, emax, prec. lia.
Qed.

(** An integer below [2 ^ 53] in absolute value converts without raising,
    to a float that is zero only for zero. *)
Lemma float_of_int_small (n : Z) :
  - 2 ^ 53 < n < 2 ^ 53 ->
  float_of_int n = Return (to_float n) /\
  (n <> 0 -> exists s M e, to_float n = S754_finite s M e).
Proof.
  intros Hn. unfold float_of_int, to_float.
  destruct n as [| p | p]; cbn [binary_normalize].
  - split; [reflexivity | congruence].
  - destruct (binary_round_small false p) as (M & e & ->); [lia |].
    split; [reflexivity | eauto].
  - destruct (binary_round_small true p) as (M & e & ->); [lia |].
    split; [reflexivity | eauto].
Qed.

Lemma float_div_int_small (x : float) (n : Z) :
  - 2 ^ 53 < n < 2 ^ 53 -> n <> 0 ->
  float_div_int x n = Return (SFdiv prec emax x (to_float n)).
Proof.
  intros Hn Hne. unfold float_div_int.
  destruct (float_of_int_small n Hn) as [-> Hfin].
  destruct (Hfin Hne) as (s & M & e & ->). reflexivity.
Qed.

Lemma float_div_int_zero (x : float) : float_div_int x 0 = Raise ZeroDivisionError.
Proof. reflexivity. Qed.

Lemma float_mul_int_small (x : float) (n : Z) :
  - 2 ^ 53 < n < 2 ^ 53 ->
  float_mul_int x n = Return (SFmul prec emax x (to_float n)).
Proof.
  intros Hn. unfold float_mul_int.
  destruct (float_of_int_small n Hn) as [-> _]. reflexivity.
Qed.

End IntToFloat.
(* ================================================================== *)
(** * Strings: common prefixes, [split] and [join]                     *)
(* ================================================================== *)

Section Strings.

Lemma stringcommon_loop_cons (x y : ascii) (a b : str) (n i : nat) :
  stringcommon_loop (x :: a) (y :: b) (S i) n
  = option_map S (stringcommon_loop a b i n).
Proof.
  revert i. induction n as [| n IH]; intros i; cbn [stringcommon_loop nth_error];
    [reflexivity |].
  destruct (nth_error a i), (nth_error b i); try reflexivity.
  destruct (Ascii.eqb a0 a1); [apply IH | reflexivity].
Qed.

Lemma stringcommon_nil_l (b : str) : stringcommon [] b = 0%nat.
Proof. reflexivity. Qed.

Lemma stringcommon_nil_r (a : str) : stringcommon a [] = 0%nat.
Proof. unfold stringcommon. rewrite Nat.min_0_r. reflexivity. Qed.

Lemma stringcommon_cons (x y : ascii) (a b : str) :
  stringcommon (x :: a) (y :: b)
  = if Ascii.eqb x y then S (stringcommon a b) else 0%nat.
Proof.
  unfold stringcommon. cbn [length Nat.min stringcommon_loop nth_error].
  destruct (Ascii.eqb x y); [| reflexivity].
  rewrite stringcommon_loop_cons.
  destruct (stringcommon_loop a b 0 _); reflexivity.
Qed.

(** [stringcommon] counts the characters of the common leading part. *)
Lemma stringcommon_length (a b : str) :
  stringcommon a b = length (common_prefix a b).
Proof.
  revert b. induction a as [| x a IH]; intros [| y b];
    rewrite ?stringcommon_nil_l, ?stringcommon_nil_r; try reflexivity.
  rewrite stringcommon_cons. cbn [common_prefix].
  destruct (Ascii.eqb x y); cbn [length]; [now rewrite IH | reflexivity].
Qed.

Lemma common_prefix_firstn (a b : str) :
  common_prefix a b = firstn (length (common_prefix a b)) a.
Proof.
  revert b. induction a as [| x a IH]; intros [| y b]; try reflexivity.
  cbn [common_prefix]. destruct (Ascii.eqb x y); [| reflexivity].
  cbn [length firstn]. now rewrite <- IH.
Qed.

Lemma common_prefix_is_prefix_r (a b : str) : is_prefix (common_prefix a b) b.
Proof.
  revert b. induction a as [| x a IH]; intros [| y b]; try (now exists []);
    try (now eexists; reflexivity).
  cbn [common_prefix]. destruct (Ascii.eqb_spec x y) as [-> | Hne].
  - destruct (IH b) as [r Hr]. exists r. cbn. now rewrite <- Hr.
  - now exists (y :: b).
Qed.

Lemma common_prefix_greatest (p a b : str) :
  is_prefix p a -> is_prefix p b -> (length p <= length (common_prefix a b))%nat.
Proof.
  revert a b. induction p as [| c p IH]; intros a b [ra Ha] [rb Hb];
    [cbn; lia |].
  subst a b. cbn [app common_prefix]. rewrite Ascii.eqb_refl. cbn [length].
  apply le_n_S, IH; eexists; reflexivity.
Qed.

Lemma is_prefix_firstn (p s : str) :
  is_prefix p s <-> p = firstn (length p) s.
Proof.
  split.
  - intros [r ->]. rewrite firstn_app, Nat.sub_diag, firstn_all. cbn.
    now rewrite app_nil_r.
  - intros H. exists (skipn (length p) s). rewrite H at 1.
    symmetry. apply firstn_skipn.
Qed.

Lemma firstn_is_prefix (n m : nat) (s : str) :
  (n <= m)%nat -> is_prefix (firstn n s) (firstn m s).
Proof.
  intros H. exists (skipn n (firstn m s)).
  replace n with (Nat.min n m) at 1 by lia.
  rewrite <- firstn_firstn. symmetry. apply firstn_skipn.
Qed.

Lemma is_prefix_trans (p q s : str) :
  is_prefix p q -> is_prefix q s -> is_prefix p s.
Proof. intros [r ->] [r' ->]. exists (r ++ r'). now rewrite app_assoc. Qed.

Lemma fold_left_min_nat (t : list nat) (a : nat) :
  let m := fold_left (fun m item => if Nat.ltb item m then item else m) t a in
  (m <= a)%nat /\ Forall (fun x => (m <= x)%nat) t /\ (m = a \/ In m t).
Proof.
  revert a. induction t as [| y t IH]; intros a; cbn [fold_left].
  - repeat split; auto.
  - destruct (IH (if Nat.ltb y a then y else a)) as (H1 & H2 & H3).
    destruct (Nat.ltb_spec y a) as [Hlt | Hge].
    + repeat split; [lia | constructor; [lia | exact H2] |].
      destruct H3 as [-> | H3]; right; [now left | now right].
    + repeat split; [lia | constructor; [lia | exact H2] |].
      destruct H3 as [-> | H3]; [now left | right; now right].
Qed.

Lemma min_by_nat_spec (l : list nat) :
  l <> [] ->
  exists m, min_by Nat.ltb l = Return m /\ In m l /\ Forall (fun x => (m <= x)%nat) l.
Proof.
  destruct l as [| x t]; [congruence | intros _].
  destruct (fold_left_min_nat t x) as (H1 & H2 & H3).
  eexists. split; [reflexivity |]. split.
  - destruct H3 as [-> | H3]; [now left | now right].
  - constructor; assumption.
Qed.

(** [stringscommon] of a list that is not empty is the longest prefix
    common to all its strings. *)
Lemma stringscommon_longest (lst0 : str) (rest : list str) :
  exists p, stringscommon (lst0 :: rest) = Return (Some p) /\
            is_longest_common_prefix p (lst0 :: rest).
Proof.
  unfold stringscommon.
  destruct (min_by_nat_spec (map (fun s => stringcommon lst0 s) (lst0 :: rest)))
    as (cnt & -> & Hin & Hall); [discriminate |].
  cbn [bind]. eexists. split; [reflexivity |].
  rewrite Forall_map in Hall. rewrite Forall_forall in Hall.
  split.
  - apply Forall_forall. intros s Hs. specialize (Hall s Hs).
    rewrite stringcommon_length in Hall.
    eapply is_prefix_trans; [| apply (common_prefix_is_prefix_r lst0 s)].
    rewrite (common_prefix_firstn lst0 s). now apply firstn_is_prefix.
  - intros p' Hp'. rewrite Forall_forall in Hp'.
    apply in_map_iff in Hin as (s & Hs & Hsin).
    pose proof (Hp' lst0 (or_introl eq_refl)) as H0.
    pose proof (common_prefix_greatest p' lst0 s H0 (Hp' s Hsin)) as Hlen.
    rewrite <- stringcommon_length, Hs in Hlen.
    apply is_prefix_firstn in H0. rewrite H0. now apply firstn_is_prefix.
Qed.

Lemma stringscommon_empty : stringscommon [] = Return None.
Proof. reflexivity. Qed.

Lemma with_separators_cons (sep : ascii) (part : str) (parts : list str) :
  with_separators sep (part :: parts)
  = part ++ sep :: with_separators sep parts.
Proof.
  unfold with_separators. cbn [map concat]. now rewrite <- app_assoc.
Qed.

Lemma split_last (sep : ascii) (s : str) :
  exists parts base,
    split sep s = parts ++ [base] /\ ~ In sep base /\
    s = with_separators sep parts ++ base.
Proof.
  induction s as [| c s (parts & base & Hsplit & Hbase & Hs)].
  - exists [], []. repeat split; auto.
  - cbn [split]. destruct (Ascii.eqb_spec c sep) as [-> | Hne].
    + exists ([] :: parts), base. rewrite Hsplit. repeat split; auto.
      rewrite with_separators_cons. cbn [app]. now rewrite <- Hs.
    + rewrite Hsplit. destruct parts as [| part parts]; cbn [app].
      * exists [], (c :: base). repeat split; auto.
        -- intros [E | H]; [congruence | auto].
        -- cbn in Hs |- *. now rewrite Hs.
      * exists ((c :: part) :: parts), base. repeat split; auto.
        rewrite with_separators_cons in Hs |- *. cbn [app]. now rewrite <- Hs.
Qed.

Lemma join_last (sep : ascii) (parts : list str) (base : str) :
  join [sep] (parts ++ [base]) = with_separators sep parts ++ base.
Proof.
  induction parts as [| part parts IH]; [reflexivity |].
  cbn [app join]. destruct (parts ++ [base]) eqn:E.
  - destruct parts; discriminate.
  - rewrite IH, with_separators_cons. cbn [app].
    now rewrite <- app_assoc.
Qed.

(** Splitting and joining again gives the string back. *)
Lemma join_split (sep : ascii) (s : str) : join [sep] (split sep s) = s.
Proof.
  destruct (split_last sep s) as (parts & base & -> & _ & Hs).
  now rewrite join_last.
Qed.

Lemma getitem_last {A : Type} (l : list A) (x : A) :
  getitem (l ++ [x]) (-1) = Return x.
Proof.
  unfold getitem, index. rewrite length_app. cbn [length Z.ltb Z.compare].
  replace (-1 + Z.of_nat (length l + 1)) with (Z.of_nat (length l)) by lia.
  replace (0 <=? Z.of_nat (length l)) with true by (symmetry; apply Z.leb_le; lia).
  replace (Z.of_nat (length l) <? Z.of_nat (length l + 1)) with true
    by (symmetry; apply Z.ltb_lt; lia).
  cbn [andb bind]. rewrite Nat2Z.id, nth_error_app2, Nat.sub_diag by lia.
  reflexivity.
Qed.

Lemma setitem_last {A : Type} (l : list A) (x v : A) :
  setitem (l ++ [x]) (-1) v = Return (l ++ [v]).
Proof.
  unfold setitem, index. rewrite length_app. cbn [length Z.ltb Z.compare].
  replace (-1 + Z.of_nat (length l + 1)) with (Z.of_nat (length l)) by lia.
  replace (0 <=? Z.of_nat (length l)) with true by (symmetry; apply Z.leb_le; lia).
  replace (Z.of_nat (length l) <? Z.of_nat (length l + 1)) with true
    by (symmetry; apply Z.ltb_lt; lia).
  cbn [andb bind]. rewrite Nat2Z.id.
  rewrite firstn_app, Nat.sub_diag, firstn_all. cbn [firstn].
  rewrite skipn_all2 by (rewrite length_app; cbn; lia).
  now rewrite app_nil_r.
Qed.

Lemma with_separators_ends (sep : ascii) (parts : list str) :
  with_separators sep parts = [] \/
  exists d, with_separators sep parts = d ++ [sep].
Proof.
  induction parts as [| part parts IH] using rev_ind; [now left |].
  right. unfold with_separators. rewrite map_app, concat_app. cbn.
  rewrite app_nil_r. exists (concat (map (fun p => p ++ [sep]) parts) ++ part).
  now rewrite app_assoc.
Qed.

End Strings.

(* ================================================================== *)
(** * The crop rectangle                                               *)
(* ================================================================== *)

Section CropRectangle.

Lemma uniformcrop_validated (self : Impostor) :
  impostorfiles self <> [] -> pil_sizes self -> validated self ->
  uniformcrop self = Return (true, cropped_state self).
Proof.
  intros Hne Hpil Hval. rewrite uniformcrop_spec by assumption.
  apply validated_sizecheck in Hval; [| assumption]. rewrite Hval. reflexivity.
Qed.

Lemma croprect_cropped_state (self : Impostor) :
  croprect (cropped_state self)
  = Some (spec_croprect (maxWidth self) (bboxes self)).
Proof. reflexivity. Qed.

(** The arithmetic of the rectangle, for any union box. *)
Lemma spec_croprect_geometry (mw : Z) (boxes : list rect) :
  let cr := spec_croprect mw boxes in
  left cr + right cr = 2 * (mw / 2) /\
  left cr <= minimum (map left boxes) /\
  upper cr = minimum (map upper boxes) /\
  lower cr = maximum (map lower boxes) /\
  left cr <= right cr /\
  (0 <= mw -> maximum (map right boxes) <= mw ->
   maximum (map right boxes) <= right cr) /\
  (0 <= mw -> 0 <= minimum (map left boxes) -> maximum (map right boxes) <= mw ->
   2 * (mw / 2) - mw <= left cr /\ right cr <= mw).
Proof.
  unfold spec_croprect, left, right, upper, lower; cbn [fst snd].
  pose proof (Z.div_mod mw 2 ltac:(lia)) as Hdm.
  pose proof (Z.mod_pos_bound mw 2 ltac:(lia)) as Hb.
  repeat split; lia.
Qed.

(** C1. For every batch that is not empty and passes the size check,
    [uniformcrop] succeeds and stores the shared crop rectangle of the
    specification: the union box [wrect] of the bounding boxes, centred on
    [xcenter = floor(maxWidth / 2)] with half width
    [max (max 0 (xcenter - wrect.x0)) (min maxWidth (wrect.x2 - xcenter))],
    and with the vertical extent of [wrect]. Image sizes are those Pillow
    can hold. *)
Theorem uniformcrop_croprect_formula (self : Impostor) :
  impostorfiles self <> [] -> pil_sizes self -> validated self ->
  exists self',
    uniformcrop self = Return (true, self') /\
    croprect self' = Some (spec_croprect (maxWidth self) (bboxes self)).
Proof.
  intros Hne Hpil Hval. exists (cropped_state self).
  split; [now apply uniformcrop_validated | apply croprect_cropped_state].
Qed.

(** The scenario of the specification: canvas 200 by 100, boxes
    (40,10,160,90), (42,10,158,88), (38,12,162,90); the rectangle is
    (38,10,162,90). *)
Lemma uniformcrop_croprect_three_shots :
  (impostorfiles three_shots <> [] /\ pil_sizes three_shots /\ validated three_shots) /\
  exists self',
    uniformcrop three_shots = Return (true, self') /\
    croprect self' = Some (38, 10, 162, 90).
Proof.
  assert (H1 : impostorfiles three_shots <> []) by (cbn; discriminate).
  assert (H2 : pil_sizes three_shots)
    by (repeat constructor; cbn; lia).
  assert (H3 : validated three_shots) by (vm_compute; reflexivity).
  split; [auto |].
  destruct (uniformcrop_croprect_formula three_shots H1 H2 H3) as (self' & E & C).
  exists self'. split; [exact E | exact C].
Defined.

(** C3. On a batch that passes the size check and whose boxes lie within
    the canvas, the rectangle [uniformcrop] stores is symmetric about
    [xcenter = floor(maxWidth / 2)] and contains every bounding box; its
    left edge is at most the least [x0], its right edge at least the
    greatest [x2], and its upper and lower edges are the least [y0] and the
    greatest [y2]. *)
Theorem croprect_symmetric_and_covering (self : Impostor) :
  impostorfiles self <> [] -> pil_sizes self -> validated self ->
  Forall (within_canvas (maxWidth self) (maxHeight self)) (bboxes self) ->
  exists self' cr,
    uniformcrop self = Return (true, self') /\ croprect self' = Some cr /\
    left cr + right cr = 2 * (maxWidth self / 2) /\
    left cr <= minimum (map left (bboxes self)) /\
    upper cr = minimum (map upper (bboxes self)) /\
    maximum (map right (bboxes self)) <= right cr /\
    lower cr = maximum (map lower (bboxes self)) /\
    Forall (fun b => left cr <= left b /\ upper cr <= upper b /\
                     right b <= right cr /\ lower b <= lower cr) (bboxes self).
Proof.
  intros Hne Hpil Hval Hin.
  exists (cropped_state self), (spec_croprect (maxWidth self) (bboxes self)).
  split; [now apply uniformcrop_validated |]. split; [reflexivity |].
  destruct (batch_bounds self Hne Hpil) as (Hw & _).
  assert (Hb : bboxes self <> []) by now apply map_nonempty.
  destruct (maximum_spec (map right (bboxes self)) (map_nonempty _ _ Hb)) as [Hmr Hmr'].
  destruct (maximum_spec (map lower (bboxes self)) (map_nonempty _ _ Hb)) as [_ Hml'].
  destruct (minimum_spec (map left (bboxes self)) (map_nonempty _ _ Hb)) as [_ Hnl'].
  destruct (minimum_spec (map upper (bboxes self)) (map_nonempty _ _ Hb)) as [_ Hnu'].
  assert (HR : maximum (map right (bboxes self)) <= maxWidth self).
  { apply in_map_iff in Hmr as (b & <- & Hb'). rewrite Forall_forall in Hin.
    apply (Hin b Hb'). }
  destruct (spec_croprect_geometry (maxWidth self) (bboxes self))
    as (G1 & G2 & G3 & G4 & _ & G5 & _).
  specialize (G5 ltac:(lia) HR).
  repeat split; try assumption.
  rewrite Forall_forall in Hmr', Hml', Hnl', Hnu' |- *. intros b Hb'.
  pose proof (Hmr' _ (in_map right _ _ Hb')).
  pose proof (Hml' _ (in_map lower _ _ Hb')).
  pose proof (Hnl' _ (in_map left _ _ Hb')).
  pose proof (Hnu' _ (in_map upper _ _ Hb')).
  lia.
Qed.

Lemma croprect_symmetric_and_covering_three_shots :
  exists self' cr,
    uniformcrop three_shots = Return (true, self') /\ croprect self' = Some cr /\
    left cr + right cr = 2 * 100 /\ left cr <= 38 /\ upper cr = 10 /\
    162 <= right cr /\ lower cr = 90.
Proof.
  assert (H1 : impostorfiles three_shots <> []) by (cbn; discriminate).
  assert (H2 : pil_sizes three_shots) by (repeat constructor; cbn; lia).
  assert (H3 : validated three_shots) by (vm_compute; reflexivity).
  assert (H4 : Forall (within_canvas (maxWidth three_shots) (maxHeight three_shots))
                      (bboxes three_shots))
    by (repeat constructor; cbn; lia).
  destruct (croprect_symmetric_and_covering three_shots H1 H2 H3 H4)
    as (self' & cr & E & C & P1 & P2 & P3 & P4 & P5 & _).
  exists self', cr. repeat split; assumption.
Defined.

(** C4, as stated, fails: a canvas of odd width 201 with a box over its
    whole width gives a rectangle that starts at column -1. *)
Lemma croprect_left_of_canvas :
  impostorfiles odd_canvas <> [] /\
  Forall (within_canvas (maxWidth odd_canvas) (maxHeight odd_canvas))
         (bboxes odd_canvas) /\
  exists self',
    uniformcrop odd_canvas = Return (true, self') /\
    croprect self' = Some (-1, 0, 201, 50) /\
    ~ (0 <= -1).
Proof.
  split; [cbn; discriminate |]. split; [repeat constructor; cbn; lia |].
  eexists. split; [vm_compute; reflexivity |]. split; [reflexivity | lia].
Qed.

(** C4, amended. On a batch that passes the size check and whose boxes
    lie within the canvas, the rectangle never passes the right edge of the
    canvas, and its left edge is at column [-1] or more: at [0] or more when
    [maxWidth] is even. *)
Theorem croprect_horizontal_extent (self : Impostor) :
  impostorfiles self <> [] -> pil_sizes self -> validated self ->
  Forall (within_canvas (maxWidth self) (maxHeight self)) (bboxes self) ->
  exists self' cr,
    uniformcrop self = Return (true, self') /\ croprect self' = Some cr /\
    -1 <= left cr /\ right cr <= maxWidth self /\
    (Z.even (maxWidth self) = true -> 0 <= left cr).
Proof.
  intros Hne Hpil Hval Hin.
  exists (cropped_state self), (spec_croprect (maxWidth self) (bboxes self)).
  split; [now apply uniformcrop_validated |]. split; [reflexivity |].
  destruct (batch_bounds self Hne Hpil) as (Hw & _).
  assert (Hb : bboxes self <> []) by now apply map_nonempty.
  destruct (maximum_spec (map right (bboxes self)) (map_nonempty _ _ Hb)) as [Hmr _].
  destruct (minimum_spec (map left (bboxes self)) (map_nonempty _ _ Hb)) as [Hnl _].
  rewrite Forall_forall in Hin.
  assert (HR : maximum (map right (bboxes self)) <= maxWidth self).
  { apply in_map_iff in Hmr as (b & <- & Hb'). apply (Hin b Hb'). }
  assert (HL : 0 <= minimum (map left (bboxes self))).
  { apply in_map_iff in Hnl as (b & <- & Hb'). apply (Hin b Hb'). }
  destruct (spec_croprect_geometry (maxWidth self) (bboxes self))
    as (_ & _ & _ & _ & _ & _ & G6).
  destruct (G6 ltac:(lia) HL HR) as [G7 G8].
  pose proof (Z.div_mod (maxWidth self) 2 ltac:(lia)) as Hdm.
  pose proof (Z.mod_pos_bound (maxWidth self) 2 ltac:(lia)) as Hmod.
  repeat split; try lia.
  intros Hev. rewrite Zmod_even, Hev in Hdm. lia.
Qed.

Lemma croprect_horizontal_extent_three_shots :
  exists self' cr,
    uniformcrop three_shots = Return (true, self') /\ croprect self' = Some cr /\
    -1 <= left cr /\ right cr <= 200 /\ 0 <= left cr.
Proof.
  assert (H1 : impostorfiles three_shots <> []) by (cbn; discriminate).
  assert (H2 : pil_sizes three_shots) by (repeat constructor; cbn; lia).
  assert (H3 : validated three_shots) by (vm_compute; reflexivity).
  assert (H4 : Forall (within_canvas (maxWidth three_shots) (maxHeight three_shots))
                      (bboxes three_shots))
    by (repeat constructor; cbn; lia).
  destruct (croprect_horizontal_extent three_shots H1 H2 H3 H4)
    as (self' & cr & E & C & P1 & P2 & P3).
  exists self', cr. repeat split; try assumption. apply P3. reflexivity.
Defined.

End CropRectangle.

(* ================================================================== *)
(** * The consistency validator                                        *)
(* ================================================================== *)

Section Validator.

(** With positive maxima the outcome of [uniformcrop] is decided by the
    integer test on every record. *)
Lemma uniformcrop_positive (self : Impostor) :
  impostorfiles self <> [] -> pil_sizes self ->
  0 < maxWidth self -> 0 < maxHeight self ->
  uniformcrop self =
  Return (if forallb (size_within_tolerance (maxWidth self) (maxHeight self))
                     (cropped_sizes self)
          then (true, cropped_state self) else (false, self)).
Proof.
  intros Hne Hpil Hw Hh.
  destruct (batch_bounds self Hne Hpil) as (Hw' & Hh' & Hall).
  rewrite uniformcrop_spec by assumption.
  rewrite sizecheck_positive by (assumption || lia). reflexivity.
Qed.

Lemma forallb_tolerated (mw mh : Z) (l : list (Z * Z)) :
  0 < mw < 2 ^ 31 -> 0 < mh < 2 ^ 31 ->
  Forall (fun s => 0 <= fst s <= mw /\ 0 <= snd s <= mh) l ->
  forallb (size_within_tolerance mw mh) l = true <->
  Forall (fun s => tolerated mw (fst s) /\ tolerated mh (snd s)) l.
Proof.
  intros Hw Hh Hall. rewrite forallb_forall, Forall_forall.
  rewrite Forall_forall in Hall.
  split; intros H s Hs; specialize (H s Hs); destruct (Hall s Hs) as [B1 B2].
  - apply andb_true_iff in H as [H1 H2].
    rewrite within_tolerance_iff in H1, H2.
    split; apply tolerated_iff; assumption.
  - destruct H as [H1 H2]. apply tolerated_iff in H1, H2; try assumption.
    apply andb_true_iff. split; apply within_tolerance_iff; assumption.
Qed.

(** C2. For a batch that is not empty and whose greatest cropped width and
    height are positive, [uniformcrop] returns success exactly when every
    record has [(maxWidth - w) / maxWidth <= 0.05] and
    [(maxHeight - h) / maxHeight <= 0.05]; when some record violates a
    bound it returns failure and leaves the object as it was: no crop
    rectangle is stored and no image is cropped. *)
Theorem consistency_validator (self : Impostor) :
  impostorfiles self <> [] -> pil_sizes self ->
  0 < maxWidth self -> 0 < maxHeight self ->
  let ok := Forall (fun s => tolerated (maxWidth self) (fst s) /\
                             tolerated (maxHeight self) (snd s))
                   (cropped_sizes self) in
  ((exists self', uniformcrop self = Return (true, self')) <-> ok) /\
  (~ ok -> uniformcrop self = Return (false, self)).
Proof.
  intros Hne Hpil Hw Hh ok.
  destruct (batch_bounds self Hne Hpil) as (Hw' & Hh' & Hall).
  pose proof (forallb_tolerated (maxWidth self) (maxHeight self) (cropped_sizes self)
                ltac:(lia) ltac:(lia) Hall) as Hiff.
  fold ok in Hiff.
  rewrite uniformcrop_positive by assumption.
  destruct (forallb _ _) eqn:E.
  - split; [| intros Hn; exfalso; apply Hn, Hiff; reflexivity].
    split; [intros _; apply Hiff; reflexivity | intros _; eauto].
  - split; [| reflexivity].
    split; [intros [self' H]; discriminate | intros H; apply Hiff in H; discriminate].
Qed.

Lemma consistency_validator_three_shots :
  ((exists self', uniformcrop three_shots = Return (true, self')) <->
   Forall (fun s => tolerated 200 (fst s) /\ tolerated 100 (snd s))
          (cropped_sizes three_shots)) /\
  (~ Forall (fun s => tolerated 200 (fst s) /\ tolerated 100 (snd s))
            (cropped_sizes three_shots) ->
   uniformcrop three_shots = Return (false, three_shots)).
Proof.
  assert (H1 : impostorfiles three_shots <> []) by (cbn; discriminate).
  assert (H2 : pil_sizes three_shots) by (repeat constructor; cbn; lia).
  assert (H3 : 0 < maxWidth three_shots) by (cbn; lia).
  assert (H4 : 0 < maxHeight three_shots) by (cbn; lia).
  exact (consistency_validator three_shots H1 H2 H3 H4).
Defined.

(** C10, as stated, fails: with every cropped height zero, a first record
    whose width is out of tolerance makes [uniformcrop] return failure
    before any division by the zero height. *)
Lemma uniformcrop_zero_height_returns :
  impostorfiles flat_batch <> [] /\
  Forall (fun s => snd s = 0) (cropped_sizes flat_batch) /\
  uniformcrop flat_batch = Return (false, flat_batch) /\
  uniformcrop flat_batch <> Raise ZeroDivisionError.
Proof.
  split; [cbn; discriminate |]. split; [repeat constructor |].
  assert (E : uniformcrop flat_batch = Return (false, flat_batch))
    by (vm_compute; reflexivity).
  split; [exact E | rewrite E; discriminate].
Qed.

Lemma all_zero_maximum (l : list Z) :
  l <> [] -> Forall (fun x => x = 0) l -> maximum l = 0.
Proof.
  intros Hne Hall. destruct (maximum_spec l Hne) as [Hin _].
  rewrite Forall_forall in Hall. now apply Hall.
Qed.

(** C10, amended. On a batch that is not empty: when every cropped width
    is zero, [uniformcrop] raises [ZeroDivisionError]; when every cropped
    height is zero and some width is not, it raises [ZeroDivisionError] if
    the first record's width is within tolerance and returns failure
    otherwise; when both maxima are positive it returns a pass or fail
    result. *)
Theorem uniformcrop_zero_extent (self : Impostor) (f0 : ImpostorFile)
        (fs : list ImpostorFile) :
  impostorfiles self = f0 :: fs -> pil_sizes self ->
  (Forall (fun s => fst s = 0) (cropped_sizes self) ->
   uniformcrop self = Raise ZeroDivisionError) /\
  (Forall (fun s => snd s = 0) (cropped_sizes self) -> 0 < maxWidth self ->
   uniformcrop self =
   if within_tolerance (maxWidth self) (fst (size (croppedimage f0)))
   then Raise ZeroDivisionError else Return (false, self)) /\
  (0 < maxWidth self -> 0 < maxHeight self ->
   exists valid self', uniformcrop self = Return (valid, self')).
Proof.
  intros Hfiles Hpil.
  assert (Hne : impostorfiles self <> []) by (rewrite Hfiles; discriminate).
  destruct (batch_bounds self Hne Hpil) as (Hw & Hh & Hall).
  assert (Hsizes : cropped_sizes self
                   = size (croppedimage f0)
                     :: map (fun impf => size (croppedimage impf)) fs)
    by (unfold cropped_sizes; rewrite Hfiles; reflexivity).
  split; [| split].
  - intros Hz. rewrite uniformcrop_spec by assumption.
    assert (E : maxWidth self = 0).
    { apply all_zero_maximum; [now apply map_nonempty, cropped_sizes_nonempty |].
      rewrite Forall_map. exact Hz. }
    rewrite E, Hsizes. reflexivity.
  - intros Hz Hpos. rewrite uniformcrop_spec by assumption.
    assert (E : maxHeight self = 0).
    { apply all_zero_maximum; [now apply map_nonempty, cropped_sizes_nonempty |].
      rewrite Forall_map. exact Hz. }
    rewrite E, Hsizes.
    rewrite Hsizes in Hall. inversion Hall as [| s l [B1 B2] _]; subst.
    rewrite sizecheck_zero_height by (assumption || lia).
    unfold within_tolerance.
    destruct (maxWidth self <? _); reflexivity.
  - intros Hpw Hph. rewrite uniformcrop_positive by assumption.
    destruct (forallb _ _); eauto.
Qed.

Lemma uniformcrop_zero_extent_flat_batch :
  uniformcrop flat_batch = Return (false, flat_batch).
Proof.
  assert (H1 : impostorfiles flat_batch
               = record_on 50 0 (0, 0, 50, 0) :: [record_on 100 0 (0, 0, 100, 0)])
    by reflexivity.
  assert (H2 : pil_sizes flat_batch) by (repeat constructor; cbn; lia).
  destruct (uniformcrop_zero_extent flat_batch _ _ H1 H2) as (_ & H & _).
  rewrite H; [reflexivity | repeat constructor | cbn; lia].
Defined.

End Validator.

(* ================================================================== *)
(** * The physical size                                                *)
(* ================================================================== *)

Section PhysicalSize.

(** C6, as stated, fails at its example: with frame (6.0, 3.0), sizes
    (200, 100) and rectangle (38,10,162,90) the width returned is not the
    float 3.72 but the float just below it, 3.7199999999999998. *)
Lemma calcimpostorsize_not_3_72 :
  sizes (cropped_state three_shots) = Some (200, 100) /\
  croprect (cropped_state three_shots) = Some (38, 10, 162, 90) /\
  framesize (cropped_state three_shots) = (float_6_0, float_3_0) /\
  calcimpostorsize (cropped_state three_shots)
  = Return (S754_finite false 8376695306909122 (-51), float_2_4) /\
  calcimpostorsize (cropped_state three_shots) <> Return (float_3_72, float_2_4).
Proof.
  assert (E : calcimpostorsize (cropped_state three_shots)
              = Return (S754_finite false 8376695306909122 (-51), float_2_4))
    by (vm_compute; reflexivity).
  split; [reflexivity |]. split; [reflexivity |]. split; [reflexivity |].
  split; [exact E | rewrite E; discriminate].
Qed.

(** C6, amended. With positive pixel extents [(maxWidth, maxHeight)], frame
    [(fw, fh)] and rectangle [(x0,y0,x2,y2)], all integers below [2 ^ 53],
    [calcimpostorsize] returns the pair of binary64 values
    [(fw / maxWidth) * (x2 - x0)] and [(fh / maxHeight) * (y2 - y0)], each
    operation rounded to nearest; it raises nothing. *)
Theorem calcimpostorsize_formula (self : Impostor) (mw mh : Z) (cr : rect) :
  sizes self = Some (mw, mh) -> croprect self = Some cr ->
  0 < mw < 2 ^ 53 -> 0 < mh < 2 ^ 53 ->
  - 2 ^ 53 < right cr - left cr < 2 ^ 53 ->
  - 2 ^ 53 < lower cr - upper cr < 2 ^ 53 ->
  calcimpostorsize self =
  Return (SFmul prec emax (SFdiv prec emax (fst (framesize self)) (to_float mw))
                (to_float (right cr - left cr)),
          SFmul prec emax (SFdiv prec emax (snd (framesize self)) (to_float mh))
                (to_float (lower cr - upper cr))).
Proof.
  intros Hs Hc Hw Hh Hx Hy. unfold calcimpostorsize.
  rewrite Hs, Hc. cbn [subscript bind fst snd].
  rewrite !float_div_int_small by lia. cbn [bind].
  rewrite !float_mul_int_small by lia. reflexivity.
Qed.

(** At the example of the specification the sizes are
    3.7199999999999998 and 2.4. *)
Lemma calcimpostorsize_formula_three_shots :
  calcimpostorsize (cropped_state three_shots)
  = Return (S754_finite false 8376695306909122 (-51), float_2_4).
Proof.
  rewrite (calcimpostorsize_formula (cropped_state three_shots) 200 100
             (38, 10, 162, 90));
    [reflexivity | reflexivity | reflexivity | lia | lia | cbn; lia | cbn; lia].
Defined.

Lemma sizecheck_true_nonzero (mw mh : Z) (s : Z * Z) (l : list (Z * Z)) :
  sizecheck mw mh (s :: l) = Return true -> mw <> 0 /\ mh <> 0.
Proof.
  cbn [sizecheck]. intros H. split; intros ->.
  - rewrite mismatch_zero in H. cbn [bind] in H. discriminate.
  - destruct (mismatch mw (fst s)) as [[|] | e]; cbn [bind] in H;
      try rewrite mismatch_zero in H; cbn [bind] in H; discriminate.
Qed.

(** When [uniformcrop] succeeds, the extents it stores are not zero. *)
Lemma uniformcrop_sizes_nonzero (self self' : Impostor) :
  uniformcrop self = Return (true, self') ->
  exists mw mh, sizes self' = Some (mw, mh) /\ mw <> 0 /\ mh <> 0.
Proof.
  unfold uniformcrop. intros H.
  destruct (impostorfiles self) as [| f0 fs] eqn:Ef; [discriminate |].
  destruct (max (map fst _)) as [mw | e] eqn:Emw; [| discriminate].
  destruct (max (map snd _)) as [mh | e] eqn:Emh; [| discriminate].
  cbn [bind] in H.
  destruct (sizecheck mw mh _) as [[|] | e] eqn:Esc; cbn [bind negb] in H;
    try discriminate.
  destruct (computecroprect mw _) as [cr | e]; cbn [bind] in H; [| discriminate].
  injection H as <-. exists mw, mh. split; [reflexivity |].
  cbn [map] in Esc. now apply sizecheck_true_nonzero in Esc.
Qed.

Lemma calcimpostorsize_zero_extent (self : Impostor) (mw mh : Z) :
  sizes self = Some (mw, mh) -> mw = 0 \/ mh = 0 ->
  exists e, calcimpostorsize self = Raise e.
Proof.
  intros Hs Hz. unfold calcimpostorsize. rewrite Hs. cbn [subscript bind fst snd].
  destruct Hz as [-> | ->].
  - rewrite float_div_int_zero. cbn [bind]. eauto.
  - destruct (float_div_int _ mw); cbn [bind]; [| eauto].
    rewrite float_div_int_zero. cbn [bind]. eauto.
Qed.

(** C7, as stated, fails for one kind of degenerate geometry: a crop of
    zero area is not rejected. Content of no width goes through
    [uniformcrop] and [calcimpostorsize] returns a width of zero. *)
Lemma zero_area_crop_accepted :
  impostorfiles thin_batch <> [] /\
  exists self',
    uniformcrop thin_batch = Return (true, self') /\
    croprect self' = Some (100, 10, 100, 90) /\
    calcimpostorsize self' = Return (S754_zero false, float_2_4).
Proof.
  split; [cbn; discriminate |].
  eexists. split; [vm_compute; reflexivity |]. split; vm_compute; reflexivity.
Qed.

(** C7, amended. Extents of zero never reach [calcimpostorsize]: the
    object that [uniformcrop] hands over on success has [maxWidth] and
    [maxHeight] different from zero, and [calcimpostorsize] itself raises
    on an extent of zero instead of returning an infinite or NaN size. A
    crop of zero area is not rejected. *)
Theorem zero_extents_never_sized (self self' : Impostor) :
  uniformcrop self = Return (true, self') ->
  (exists mw mh, sizes self' = Some (mw, mh) /\ mw <> 0 /\ mh <> 0) /\
  (forall z, (exists e, calcimpostorsize (set_sizes self' (0, z)) = Raise e) /\
             (exists e, calcimpostorsize (set_sizes self' (z, 0)) = Raise e)).
Proof.
  intros H. split; [now apply uniformcrop_sizes_nonzero in H |].
  intros z. split.
  - apply (calcimpostorsize_zero_extent _ 0 z); [reflexivity | now left].
  - apply (calcimpostorsize_zero_extent _ z 0); [reflexivity | now right].
Qed.

Lemma zero_extents_never_sized_three_shots :
  (exists mw mh, sizes (cropped_state three_shots) = Some (mw, mh) /\
                 mw <> 0 /\ mh <> 0) /\
  (exists e, calcimpostorsize (set_sizes (cropped_state three_shots) (0, 100))
             = Raise e).
Proof.
  assert (H : uniformcrop three_shots = Return (true, cropped_state three_shots))
    by (vm_compute; reflexivity).
  destruct (zero_extents_never_sized three_shots _ H) as [H1 H2].
  split; [exact H1 | exact (proj1 (H2 100))].
Defined.

End PhysicalSize.

(* ================================================================== *)
(** * The output name                                                  *)
(* ================================================================== *)

Section Naming.

(** The default name, from the common part [p] of the file names. *)
Lemma outfilename_of_common (self : Impostor) (p : str) :
  stringscommon (filenames self) = Return (Some p) ->
  exists dir base,
    p = dir ++ base /\ ~ In slash base /\
    (dir = [] \/ exists d, dir = d ++ [slash]) /\
    outfilename self None
    = Return (dir ++ impostor_prefix ++ base ++ png_suffix).
Proof.
  intros Hp. destruct (split_last slash p) as (parts & base & Hsplit & Hbase & Hs).
  exists (with_separators slash parts), base.
  split; [exact Hs |]. split; [exact Hbase |].
  split; [apply with_separators_ends |].
  unfold outfilename. rewrite Hp. cbn [bind attribute].
  rewrite Hsplit, getitem_last. cbn [bind].
  rewrite setitem_last. cbn [bind].
  rewrite join_last. now rewrite <- !app_assoc.
Qed.

(** C9. For every list of input file names that is not empty,
    [outfilename()] returns the longest leading part common to all the
    names, with ["impostor-"] put before its last segment between slashes
    and [".png"] put after it. *)
Theorem outfilename_default (self : Impostor) (f0 : str) (fs : list str) :
  filenames self = f0 :: fs ->
  exists p dir base,
    is_longest_common_prefix p (f0 :: fs) /\
    p = dir ++ base /\ ~ In slash base /\
    (dir = [] \/ exists d, dir = d ++ [slash]) /\
    outfilename self None
    = Return (dir ++ impostor_prefix ++ base ++ png_suffix).
Proof.
  intros Hf. destruct (stringscommon_longest f0 fs) as (p & Hp & Hlcp).
  rewrite <- Hf in Hp.
  destruct (outfilename_of_common self p Hp) as (dir & base & H).
  exists p, dir, base. split; [exact Hlcp | exact H].
Qed.

(** The naming scenario: ["/a/shot_01.png"] and ["/a/shot_02.png"] give
    ["/a/impostor-shot_0.png"]. *)
Lemma outfilename_default_two_shots :
  (exists p dir base,
      is_longest_common_prefix
        p (map list_ascii_of_string ["/a/shot_01.png"; "/a/shot_02.png"]%string) /\
      p = dir ++ base /\ ~ In slash base /\
      (dir = [] \/ exists d, dir = d ++ [slash]) /\
      outfilename two_shots None
      = Return (dir ++ impostor_prefix ++ base ++ png_suffix)) /\
  outfilename two_shots None
  = Return (list_ascii_of_string "/a/impostor-shot_0.png").
Proof.
  split; [| vm_compute; reflexivity].
  apply (outfilename_default two_shots). reflexivity.
Defined.

End Naming.

(* ================================================================== *)
(** * The compositor and the reference flow                            *)
(* ================================================================== *)

Section Compositor.

Variable resize : Image -> Z * Z -> result Image.

Lemma getitem_nth {A : Type} (l : list A) (n : nat) (x : A) :
  nth_error l n = Some x -> getitem l (Z.of_nat n) = Return x.
Proof.
  intros H. unfold getitem, index.
  assert (n < length l)%nat by (apply nth_error_Some; congruence).
  replace (Z.of_nat n <? 0) with false by (symmetry; apply Z.ltb_ge; lia).
  replace (0 <=? Z.of_nat n) with true by (symmetry; apply Z.leb_le; lia).
  replace (Z.of_nat n <? Z.of_nat (length l)) with true
    by (symmetry; apply Z.ltb_lt; lia).
  cbn [andb bind]. now rewrite Nat2Z.id, H.
Qed.

Lemma Forall2_nth_left {A B : Type} (R : A -> B -> Prop) (l : list A)
      (l' : list B) (k : nat) (a : A) :
  Forall2 R l l' -> nth_error l k = Some a ->
  exists b, nth_error l' k = Some b /\ R a b.
Proof.
  intros H. revert k. induction H as [| x y l l' Hxy _ IH]; intros [| k] Hk;
    try discriminate.
  - cbn in Hk. injection Hk as <-. exists y. split; [reflexivity | assumption].
  - apply IH. exact Hk.
Qed.

(** The loop keeps the size of the canvas. *)
Lemma generateimpostor_loop_size (imgs : list Image) (imagesize : Z * Z)
      (ns : list nat) (composite out : Image) :
  generateimpostor_loop resize imgs imagesize ns composite = Return out ->
  size out = size composite.
Proof.
  revert composite. induction ns as [| n ns IH]; intros composite H;
    cbn [generateimpostor_loop] in H.
  - now injection H as <-.
  - destruct (getitem imgs (Z.of_nat n)); cbn [bind] in H; [| discriminate].
    destruct (resize a imagesize); cbn [bind] in H; [| discriminate].
    now rewrite (IH _ H).
Qed.

Lemma generateimpostor_size (self : Impostor) (imagesize : Z * Z) (out : Image) :
  generateimpostor resize self imagesize = Return out ->
  exists imgs, croppedimages self = Some imgs /\
               size out = (fst imagesize, snd imagesize * Z.of_nat (length imgs)).
Proof.
  unfold generateimpostor. intros H.
  destruct (croppedimages self) as [imgs |]; cbn [attribute bind] in H;
    [| discriminate].
  exists imgs. split; [reflexivity |].
  unfold Image_new in H. destruct (_ || _); cbn [bind] in H; [discriminate |].
  now apply generateimpostor_loop_size in H.
Qed.

Hypothesis resize_size :
  forall im sz r, resize im sz = Return r -> size r = sz.

(** The loop over the bands [k .. k + n - 1]: a pixel inside one of
    these bands is the pixel of the resized image of the band; any
    other pixel is left as it was. *)
Lemma generateimpostor_loop_bands (imgs resized : list Image) (tw th : Z) :
  0 <= th ->
  Forall2 (fun im r => resize im (tw, th) = Return r) imgs resized ->
  forall (n k : nat) (composite : Image),
    (k + n = length imgs)%nat ->
    exists out,
      generateimpostor_loop resize imgs (tw, th) (seq k n) composite = Return out /\
      forall x y,
        (forall j r, (k <= j)%nat -> nth_error resized j = Some r ->
                     0 <= x < tw -> th * Z.of_nat j <= y < th * Z.of_nat j + th ->
                     getpixel out x y = getpixel r x (y - th * Z.of_nat j)) /\
        (~ (0 <= x < tw /\ th * Z.of_nat k <= y < th * Z.of_nat (length imgs)) ->
         getpixel out x y = getpixel composite x y).
Proof.
  intros Hth Hres. induction n as [| n IH]; intros k composite Hk.
  - exists composite. split; [reflexivity |]. intros x y. split; [| reflexivity].
    intros j r Hj Hr.
    assert (j < length resized)%nat by (apply nth_error_Some; congruence).
    rewrite <- (Forall2_length Hres) in H. lia.
  - cbn [seq generateimpostor_loop].
    assert (Hlt : (k < length imgs)%nat) by lia.
    destruct (nth_error imgs k) as [im |] eqn:Eim;
      [| apply nth_error_None in Eim; lia].
    destruct (Forall2_nth_left _ _ _ _ _ Hres Eim) as (rk & Erk & Hrk).
    rewrite (getitem_nth _ _ _ Eim). cbn [bind]. rewrite Hrk. cbn [bind snd].
    destruct (IH (S k) (paste composite rk (0, th * Z.of_nat k)) ltac:(lia))
      as (out & Hout & Hpix).
    exists out. split; [exact Hout |]. intros x y.
    destruct (Hpix x y) as [Hin Hout'].
    pose proof (resize_size _ _ _ Hrk) as Hsz.
    split.
    + intros j r Hj Hr Hx Hy.
      destruct (Nat.eq_dec j k) as [-> | Hne].
      * rewrite Hout' by nia.
        rewrite Erk in Hr. injection Hr as <-.
        unfold paste, inside. cbn [getpixel fst snd]. rewrite Hsz. cbn [fst snd].
        rewrite Z.sub_0_r.
        replace ((0 <=? x) && (x <? tw) && (0 <=? y - th * Z.of_nat k)
                 && (y - th * Z.of_nat k <? th)) with true; [reflexivity |].
        symmetry. rewrite !andb_true_iff, !Z.leb_le, !Z.ltb_lt. lia.
      * apply Hin; try assumption. lia.
    + intros Hnot. rewrite Hout' by nia.
      unfold paste, inside. cbn [getpixel fst snd]. rewrite Hsz. cbn [fst snd].
      rewrite Z.sub_0_r.
      replace ((0 <=? x) && (x <? tw) && (0 <=? y - th * Z.of_nat k)
               && (y - th * Z.of_nat k <? th)) with false; [reflexivity |].
      symmetry. apply not_true_is_false. intros Ht.
      rewrite !andb_true_iff, !Z.leb_le, !Z.ltb_lt in Ht. nia.
Qed.

(** C5. For cropped images that all resize, [generateimpostor] with tile
    size [(tw, th)] returns an image of width [tw] and height
    [th * n] in which the band of rows [k * th .. (k + 1) * th - 1] is
    the [k]-th cropped image resized to [(tw, th)], pixel for pixel in
    all four bands, alpha included. *)
Theorem generateimpostor_bands (self : Impostor) (imgs resized : list Image)
        (tw th : Z) :
  croppedimages self = Some imgs -> 0 <= tw -> 0 <= th ->
  Forall2 (fun im r => resize im (tw, th) = Return r) imgs resized ->
  exists composite,
    generateimpostor resize self (tw, th) = Return composite /\
    size composite = (tw, th * Z.of_nat (length imgs)) /\
    forall k r, nth_error resized k = Some r ->
                forall x y, 0 <= x < tw -> 0 <= y < th ->
                            getpixel composite x (th * Z.of_nat k + y)
                            = getpixel r x y.
Proof.
  intros Himgs Htw Hth Hres. unfold generateimpostor.
  rewrite Himgs. cbn [attribute bind fst snd]. unfold Image_new. cbn [fst snd].
  replace ((tw <? 0) || (th * Z.of_nat (length imgs) <? 0)) with false
    by (symmetry; apply orb_false_iff; rewrite !Z.ltb_ge; nia).
  cbn [bind].
  destruct (generateimpostor_loop_bands imgs resized tw th Hth Hres
              (length imgs) 0%nat (new (tw, th * Z.of_nat (length imgs))) eq_refl)
    as (out & Hout & Hpix).
  exists out. split; [exact Hout |]. split.
  - now rewrite (generateimpostor_loop_size _ _ _ _ _ Hout).
  - intros k r Hr x y Hx Hy.
    destruct (Hpix x (th * Z.of_nat k + y)) as [Hin _].
    rewrite (Hin k r); [f_equal; lia | lia | exact Hr | exact Hx | lia].
Qed.

End Compositor.

(** Two images, a red and a half transparent blue one, on tiles of 128 by
    64: the second band is blue with its alpha of 128. *)
Lemma generateimpostor_bands_two_colours :
  exists composite,
    generateimpostor resize_nearest two_colours (128, 64) = Return composite /\
    size composite = (128, 128) /\
    getpixel composite 5 3 = red /\
    getpixel composite 5 (64 + 3) = blue_half.
Proof.
  assert (Hsz : forall im sz r, resize_nearest im sz = Return r -> size r = sz).
  { intros im sz r. unfold resize_nearest.
    destruct (_ || _); [discriminate |]. intros H. now injection H as <-. }
  destruct (generateimpostor_bands resize_nearest Hsz two_colours
              [solid (124, 80) red; solid (124, 80) blue_half]
              [solid (128, 64) red; solid (128, 64) blue_half] 128 64
              eq_refl ltac:(lia) ltac:(lia))
    as (composite & E & S & P).
  { repeat constructor. }
  exists composite. split; [exact E |]. split; [exact S |]. split.
  - apply (P 0%nat (solid (128, 64) red) eq_refl 5 3); lia.
  - apply (P 1%nat (solid (128, 64) blue_half) eq_refl 5 3); lia.
Defined.

Section ReferenceFlow.

Variable resize : Image -> Z * Z -> result Image.
Variable RawFile : Type.
Variable ImpostorFile_readimage : Impostor -> str -> result RawFile.
Variable ImpostorFile_extract : RawFile -> result (option ImpostorFile).

Local Abbreviation the_main :=
  (main resize RawFile ImpostorFile_readimage ImpostorFile_extract).
Local Abbreviation the_readfiles := (readfiles RawFile ImpostorFile_readimage).
Local Abbreviation the_processfiles := (processfiles RawFile ImpostorFile_extract).

(** [uniformcrop] neither reads nor changes [self.options]. *)
Lemma uniformcrop_set_options (self : Impostor) (o : Args) :
  uniformcrop (set_options self o)
  = match uniformcrop self with
    | Return (valid, self') => Return (valid, set_options self' o)
    | Raise e => Raise e
    end.
Proof.
  unfold uniformcrop. cbn [set_options impostorfiles].
  destruct (max (map fst _)) as [mw | e]; cbn [bind]; [| reflexivity].
  destruct (max (map snd _)) as [mh | e]; cbn [bind]; [| reflexivity].
  destruct (sizecheck mw mh _) as [[|] | e]; cbn [bind negb]; try reflexivity.
  destruct (computecroprect mw _) as [cr | e]; cbn [bind]; reflexivity.
Qed.

Lemma processfiles_length (raws : list RawFile) (ifiles : list ImpostorFile) :
  the_processfiles raws = Return (Some ifiles) -> length ifiles = length raws.
Proof.
  revert ifiles. induction raws as [| raw raws IH]; intros ifiles H;
    cbn [processfiles] in H.
  - now injection H as <-.
  - destruct (ImpostorFile_extract raw) as [[f |] | e]; cbn [bind] in H;
      try discriminate.
    destruct (the_processfiles raws) as [[fs |] | e]; cbn [bind] in H;
      try discriminate.
    injection H as <-. cbn [length]. now rewrite (IH fs eq_refl).
Qed.

Lemma readfiles_loop_length (self : Impostor) (names : list str)
      (raws : list RawFile) :
  readfiles_loop RawFile ImpostorFile_readimage self names = Return raws ->
  length raws = length names.
Proof.
  revert raws. induction names as [| name names IH]; intros raws H;
    cbn [readfiles_loop] in H.
  - now injection H as <-.
  - destruct (ImpostorFile_readimage self name); cbn [bind] in H; [| discriminate].
    destruct (readfiles_loop _ _ self names) as [rest | e]; cbn [bind] in H;
      [| discriminate].
    injection H as <-. cbn [length]. now rewrite (IH rest eq_refl).
Qed.

(** The tile size of the reference flow: a saved composite is 128 wide
    and 64 high per input file. *)
Lemma main_saved_size (args : Args) (outfile : str) (finalimage : Image)
      (finalsize : float * float) :
  the_main args = Return (Saved outfile finalimage finalsize) ->
  size finalimage = (128, 64 * Z.of_nat (length (files args))).
Proof.
  unfold main. intros H.
  destruct (the_readfiles (Impostor_init args)) as [raws | e] eqn:Eraws;
    cbn [bind] in H; [| discriminate].
  destruct (outfilename _ None); cbn [bind] in H; [| discriminate].
  destruct (the_processfiles raws) as [[ifiles |] | e] eqn:Eproc; cbn [bind] in H;
    try discriminate.
  destruct (uniformcrop _) as [[valid imp] | e] eqn:Ecrop; cbn [bind] in H;
    [| discriminate].
  destruct valid; cbn [negb] in H; [| discriminate].
  destruct (generateimpostor resize imp (128, 64)) as [img | e] eqn:Egen;
    cbn [bind] in H; [| discriminate].
  destruct (calcimpostorsize imp); cbn [bind] in H; [| discriminate].
  injection H as _ <- _.
  apply generateimpostor_size in Egen as (imgs & Himgs & ->). cbn [fst snd].
  do 3 f_equal.
  apply processfiles_length in Eproc.
  apply readfiles_loop_length in Eraws. cbn [Impostor_init filenames] in Eraws.
  rewrite <- Eraws, <- Eproc.
  (* the cropped images are one per extracted file *)
  unfold uniformcrop in Ecrop. cbn [set_impostorfiles impostorfiles] in Ecrop.
  destruct (max (map fst _)); cbn [bind] in Ecrop; [| discriminate].
  destruct (max (map snd _)); cbn [bind] in Ecrop; [| discriminate].
  destruct (sizecheck _ _ _) as [[|] |]; cbn [bind negb] in Ecrop; try discriminate.
  destruct (computecroprect _ _); cbn [bind] in Ecrop; [| discriminate].
  injection Ecrop as <-. cbn in Himgs. injection Himgs as <-.
  now rewrite length_map.
Qed.

Hypothesis readimage_ignores_rez :
  forall (args : Args) (rz : Z) (name : str),
    ImpostorFile_readimage (Impostor_init (set_rez args rz)) name
    = ImpostorFile_readimage (Impostor_init args) name.

Lemma readfiles_set_rez (args : Args) (rz : Z) :
  the_readfiles (Impostor_init (set_rez args rz)) = the_readfiles (Impostor_init args).
Proof.
  unfold readfiles. cbn [Impostor_init filenames set_rez files].
  induction (files args) as [| name names IH]; cbn [readfiles_loop];
    [reflexivity |].
  now rewrite readimage_ignores_rez, IH.
Qed.

(** C8. The reference flow builds the composite with the tile size
    (128, 64) whatever [--rez] is: two runs that differ only in [--rez]
    end the same way, with the same composite, and a saved composite is
    128 wide and 64 high per input file. The image reader is taken not to
    consult [--rez]. *)
Theorem main_ignores_rez (args : Args) (rz : Z) :
  the_main (set_rez args rz) = the_main args /\
  forall outfile finalimage finalsize,
    the_main args = Return (Saved outfile finalimage finalsize) ->
    size finalimage = (128, 64 * Z.of_nat (length (files args))).
Proof.
  split; [| apply main_saved_size].
  unfold main. rewrite readfiles_set_rez.
  destruct (the_readfiles (Impostor_init args)) as [raws | e]; cbn [bind];
    [| reflexivity].
  change (outfilename (Impostor_init (set_rez args rz)) None)
    with (outfilename (Impostor_init args) None).
  destruct (outfilename _ None) as [outfile | e]; cbn [bind]; [| reflexivity].
  destruct (the_processfiles raws) as [[ifiles |] | e]; cbn [bind]; try reflexivity.
  change (set_impostorfiles (Impostor_init (set_rez args rz)) ifiles)
    with (set_options (set_impostorfiles (Impostor_init args) ifiles)
                      (set_rez args rz)).
  rewrite uniformcrop_set_options.
  destruct (uniformcrop _) as [[valid imp] | e]; cbn [bind]; reflexivity.
Qed.

End ReferenceFlow.

(** Two runs over the same two files, with [--rez] 64 and 256. *)
Lemma main_ignores_rez_two_shots :
  main resize_nearest str read_name extract_fixed (set_rez (options two_shots) 256)
  = main resize_nearest str read_name extract_fixed (options two_shots) /\
  exists outfile finalimage finalsize,
    main resize_nearest str read_name extract_fixed (options two_shots)
    = Return (Saved outfile finalimage finalsize) /\
    size finalimage = (128, 128).
Proof.
  destruct (main_ignores_rez resize_nearest str read_name extract_fixed
              (fun _ _ _ => eq_refl) (options two_shots) 256) as [H1 H2].
  split; [exact H1 |].
  destruct (main resize_nearest str read_name extract_fixed (options two_shots))
    as [[| | outfile finalimage finalsize] | e] eqn:E;
    try (vm_compute in E; discriminate).
  exists outfile, finalimage, finalsize. split; [reflexivity |].
  apply (H2 outfile finalimage finalsize eq_refl).
Defined.

(* ================================================================== *)
(** * More on the naming helper                                        *)
(* ================================================================== *)

Section NamingMore.

(** X1. [stringcommon a b] is the number of leading characters that [a] and
    [b] share: it does not exceed either length, the two strings agree on
    that many characters, and they differ at the next one when both have
    one. *)
Theorem stringcommon_spec (a b : str) :
  let n := stringcommon a b in
  (n <= length a)%nat /\ (n <= length b)%nat /\
  firstn n a = firstn n b /\
  forall x y, nth_error a n = Some x -> nth_error b n = Some y -> x <> y.
Proof.
  revert b. induction a as [| x a IH]; intros [| y b];
    rewrite ?stringcommon_nil_l, ?stringcommon_nil_r; cbn zeta;
    try (repeat split; cbn; try lia; discriminate).
  rewrite stringcommon_cons. destruct (Ascii.eqb_spec x y) as [-> | Hne].
  - destruct (IH b) as (H1 & H2 & H3 & H4). cbn [length firstn nth_error].
    repeat split; try lia; [now rewrite H3 | exact H4].
  - cbn [length firstn nth_error]. repeat split; try lia.
    intros x' y' Hx Hy. congruence.
Qed.

Lemma stringcommon_refl (a : str) : stringcommon a a = length a.
Proof.
  induction a as [| x a IH]; [reflexivity |].
  rewrite stringcommon_cons, Ascii.eqb_refl, IH. reflexivity.
Qed.

(** X2. The count does not depend on the order of the two strings, and a
    string shares all of its characters with itself. *)
Theorem stringcommon_sym (a b : str) :
  stringcommon a b = stringcommon b a /\ stringcommon a a = length a.
Proof.
  split; [| apply stringcommon_refl].
  revert b. induction a as [| x a IH]; intros [| y b];
    rewrite ?stringcommon_nil_l, ?stringcommon_nil_r; try reflexivity.
  rewrite !stringcommon_cons, (Ascii.eqb_sym y x).
  destruct (Ascii.eqb x y); [now rewrite IH | reflexivity].
Qed.

Lemma stringscommon_single (f : str) : stringscommon [f] = Return (Some f).
Proof.
  unfold stringscommon, min_by. cbn [map fold_left bind].
  rewrite stringcommon_refl, firstn_all. reflexivity.
Qed.

(** X3. With a single input file the default name is that file's whole
    name, extension included, with ["impostor-"] put after its last slash
    and [".png"] put at the end. *)
Theorem outfilename_single_file (self : Impostor) (f : str) :
  filenames self = [f] ->
  exists dir base,
    f = dir ++ base /\ ~ In slash base /\
    (dir = [] \/ exists d, dir = d ++ [slash]) /\
    outfilename self None
    = Return (dir ++ impostor_prefix ++ base ++ png_suffix).
Proof.
  intros Hf. apply outfilename_of_common. rewrite Hf. apply stringscommon_single.
Qed.

Lemma outfilename_single_file_one_shot :
  (exists dir base,
      list_ascii_of_string "/a/x.png" = dir ++ base /\ ~ In slash base /\
      (dir = [] \/ exists d, dir = d ++ [slash]) /\
      outfilename one_shot None
      = Return (dir ++ impostor_prefix ++ base ++ png_suffix)) /\
  outfilename one_shot None
  = Return (list_ascii_of_string "/a/impostor-x.png.png").
Proof.
  split; [| vm_compute; reflexivity].
  apply (outfilename_single_file one_shot). reflexivity.
Defined.

Lemma prefix_before_last_separator (c : ascii) (d dir base : str) :
  is_prefix (d ++ [c]) (dir ++ base) -> ~ In c base -> is_prefix (d ++ [c]) dir.
Proof.
  intros [r Hr] Hbase. symmetry in Hr.
  apply app_eq_app in Hr as [l [[H1 H2] | [H1 H2]]].
  - destruct l as [| z l] using rev_ind.
    + rewrite app_nil_r in H1. subst dir. exists []. now rewrite app_nil_r.
    + rewrite app_assoc in H1. apply app_inj_tail in H1 as [_ <-].
      exfalso. apply Hbase. rewrite H2. apply in_or_app. left.
      apply in_or_app. right. now left.
  - now exists l.
Qed.

(** X4. The default name stays in the directory of the inputs: when every
    file name starts with the same directory [d/], so does the name
    [outfilename()] returns. *)
Theorem outfilename_keeps_directory (self : Impostor) (f0 : str) (fs : list str)
        (d : str) :
  filenames self = f0 :: fs ->
  Forall (is_prefix (d ++ [slash])) (f0 :: fs) ->
  exists rest, outfilename self None = Return ((d ++ [slash]) ++ rest).
Proof.
  intros Hf Hd. destruct (stringscommon_longest f0 fs) as (p & Hp & _ & Hmax).
  rewrite <- Hf in Hp.
  destruct (outfilename_of_common self p Hp) as (dir & base & Hpd & Hbase & _ & ->).
  specialize (Hmax _ Hd). rewrite Hpd in Hmax.
  destruct (prefix_before_last_separator _ _ _ _ Hmax Hbase) as [r ->].
  eexists. now rewrite <- !app_assoc.
Qed.

Lemma outfilename_keeps_directory_two_shots :
  exists rest,
    outfilename two_shots None = Return ((list_ascii_of_string "/a" ++ [slash]) ++ rest).
Proof.
  apply (outfilename_keeps_directory two_shots
           (list_ascii_of_string "/a/shot_01.png")
           [list_ascii_of_string "/a/shot_02.png"]);
    [reflexivity |].
  repeat constructor; eexists; reflexivity.
Defined.

(** X5. [outfilename] fails in one case only: no explicit name and no
    input file name, where the common part is [None] and splitting it
    raises [AttributeError]. An explicit name is returned with [".png"]
    added, whatever the input files are. *)
Theorem outfilename_failure (self : Impostor) (name : option str) :
  (name = None /\ filenames self = [] ->
   outfilename self name = Raise AttributeError) /\
  (forall n, name = Some n -> outfilename self name = Return (n ++ png_suffix)) /\
  (name <> None \/ filenames self <> [] ->
   exists s, outfilename self name = Return (s ++ png_suffix)).
Proof.
  split; [| split].
  - intros [-> Hf]. unfold outfilename. rewrite Hf. reflexivity.
  - intros n ->. reflexivity.
  - intros H. destruct name as [n |]; [now exists n |].
    destruct H as [H | H]; [congruence |].
    destruct (filenames self) as [| f0 fs] eqn:Hf; [congruence |].
    destruct (stringscommon_longest f0 fs) as (p & Hp & _).
    rewrite <- Hf in Hp.
    destruct (outfilename_of_common self p Hp) as (dir & base & _ & _ & _ & ->).
    exists (dir ++ impostor_prefix ++ base). now rewrite <- !app_assoc.
Qed.

End NamingMore.

(* ================================================================== *)
(** * More on [uniformcrop]                                            *)
(* ================================================================== *)

Section UniformCropMore.

(** What a successful [uniformcrop] has computed. *)
Lemma uniformcrop_true_inv (self self' : Impostor) :
  uniformcrop self = Return (true, self') ->
  exists mw mh cr,
    max (map fst (cropped_sizes self)) = Return mw /\
    max (map snd (cropped_sizes self)) = Return mh /\
    sizecheck mw mh (cropped_sizes self) = Return true /\
    computecroprect mw (bboxes self) = Return cr /\
    self' = set_croppedimages
              (set_croprect (set_sizes self (mw, mh)) cr)
              (map (fun impf => crop (croppedimage impf) cr) (impostorfiles self)).
Proof.
  unfold uniformcrop. fold (cropped_sizes self) (bboxes self). intros H.
  destruct (max (map fst _)) as [mw | e] eqn:Emw; cbn [bind] in H; [| discriminate].
  destruct (max (map snd _)) as [mh | e] eqn:Emh; cbn [bind] in H; [| discriminate].
  destruct (sizecheck mw mh _) as [[|] | e] eqn:Esc; cbn [bind negb] in H;
    try discriminate.
  destruct (computecroprect mw _) as [cr | e] eqn:Ecr; cbn [bind] in H;
    [| discriminate].
  injection H as <-. exists mw, mh, cr. repeat split; assumption || reflexivity.
Qed.

Lemma uniformcrop_false_inv (self self' : Impostor) :
  uniformcrop self = Return (false, self') -> self' = self.
Proof.
  unfold uniformcrop. intros H.
  destruct (max (map fst _)) as [mw | e]; cbn [bind] in H; [| discriminate].
  destruct (max (map snd _)) as [mh | e]; cbn [bind] in H; [| discriminate].
  destruct (sizecheck mw mh _) as [[|] | e]; cbn [bind negb] in H; try discriminate.
  - destruct (computecroprect mw _) as [cr | e]; cbn [bind] in H; discriminate.
  - now injection H as <-.
Qed.

Lemma computecroprect_ordered (mw : Z) (boxes : list rect) (cr : rect) :
  computecroprect mw boxes = Return cr -> left cr <= right cr.
Proof.
  unfold computecroprect. intros H.
  repeat match type of H with
         | bind ?c _ = _ => destruct c; cbn [bind] in H; [| discriminate]
         end.
  injection H as <-. unfold left, right. cbn [fst snd]. lia.
Qed.



(** X7. After a successful [uniformcrop] there is one cropped image per
    record, and all of them have the same size: the width and the height of
    the crop rectangle, whose right edge is not left of its left edge. *)
Theorem uniformcrop_uniform_size (self self' : Impostor) :
  uniformcrop self = Return (true, self') ->
  exists cr imgs,
    croprect self' = Some cr /\ croppedimages self' = Some imgs /\
    length imgs = length (impostorfiles self) /\
    left cr <= right cr /\
    Forall (fun im => size im = (right cr - left cr, Z.max 0 (lower cr - upper cr)))
           imgs.
Proof.
  intros H. apply uniformcrop_true_inv in H as (mw & mh & cr & _ & _ & _ & Hcr & ->).
  exists cr, (map (fun impf => crop (croppedimage impf) cr) (impostorfiles self)).
  pose proof (computecroprect_ordered _ _ _ Hcr) as Hord.
  split; [reflexivity |]. split; [reflexivity |].
  split; [apply length_map |]. split; [exact Hord |].
  apply Forall_map, Forall_forall. intros impf _. unfold crop. cbn [size].
  f_equal. lia.
Qed.

Lemma uniformcrop_uniform_size_three_shots :
  exists cr imgs,
    croprect (cropped_state three_shots) = Some cr /\
    croppedimages (cropped_state three_shots) = Some imgs /\
    length imgs = 3%nat /\ left cr <= right cr /\
    Forall (fun im => size im = (right cr - left cr, Z.max 0 (lower cr - upper cr)))
           imgs.
Proof.
  apply (uniformcrop_uniform_size three_shots). vm_compute. reflexivity.
Defined.

(** X8. Nothing inside a bounding box is cut off: on a batch of Pillow
    sizes, every pixel of a record that lies inside its image and inside
    its bounding box is found in the record's cropped image, moved by the
    corner of the crop rectangle. *)
Theorem uniformcrop_keeps_content (self self' : Impostor) (k : nat)
        (f : ImpostorFile) :
  pil_sizes self -> uniformcrop self = Return (true, self') ->
  nth_error (impostorfiles self) k = Some f ->
  exists cr imgs im,
    croprect self' = Some cr /\ croppedimages self' = Some imgs /\
    nth_error imgs k = Some im /\
    forall x y,
      inside (croppedimage f) x y = true ->
      left (croppedbbox f) <= x < right (croppedbbox f) ->
      upper (croppedbbox f) <= y < lower (croppedbbox f) ->
      inside im (x - left cr) (y - upper cr) = true /\
      getpixel im (x - left cr) (y - upper cr) = getpixel (croppedimage f) x y.
Proof.
  intros Hpil H Hk.
  assert (Hne : impostorfiles self <> []) by (destruct (impostorfiles self);
                                              [destruct k |]; discriminate).
  rewrite uniformcrop_spec in H by assumption.
  destruct (sizecheck _ _ _) as [[|] | e]; cbn [bind] in H; try discriminate.
  injection H as <-.
  set (cr := spec_croprect (maxWidth self) (bboxes self)).
  exists cr, (map (fun impf => crop (croppedimage impf) cr) (impostorfiles self)),
         (crop (croppedimage f) cr).
  split; [reflexivity |]. split; [reflexivity |].
  split; [now rewrite nth_error_map, Hk |].
  intros x y Hin Hx Hy.
  destruct (batch_bounds self Hne Hpil) as (Hw & _ & Hall).
  assert (Hb : bboxes self <> []) by now apply map_nonempty.
  assert (Hfin : In f (impostorfiles self)) by (eapply nth_error_In; eassumption).
  assert (Hbin : In (croppedbbox f) (bboxes self)) by now apply in_map.
  destruct (maximum_spec (map right (bboxes self)) (map_nonempty _ _ Hb)) as [_ Hmr].
  destruct (maximum_spec (map lower (bboxes self)) (map_nonempty _ _ Hb)) as [_ Hml].
  destruct (minimum_spec (map left (bboxes self)) (map_nonempty _ _ Hb)) as [_ Hnl].
  destruct (minimum_spec (map upper (bboxes self)) (map_nonempty _ _ Hb)) as [_ Hnu].
  rewrite Forall_forall in Hmr, Hml, Hnl, Hnu, Hall.
  pose proof (Hmr _ (in_map right _ _ Hbin)) as B1.
  pose proof (Hml _ (in_map lower _ _ Hbin)) as B2.
  pose proof (Hnl _ (in_map left _ _ Hbin)) as B3.
  pose proof (Hnu _ (in_map upper _ _ Hbin)) as B4.
  pose proof (Hall _ (in_map (fun impf => size (croppedimage impf)) _ _ Hfin))
    as [B5 _]. cbn beta in B5.
  unfold inside in Hin. rewrite !andb_true_iff, !Z.leb_le, !Z.ltb_lt in Hin.
  pose proof (Z.div_mod (maxWidth self) 2 ltac:(lia)) as Hdm.
  pose proof (Z.mod_pos_bound (maxWidth self) 2 ltac:(lia)) as Hmod.
  assert (Hcr : left cr <= x < right cr /\ upper cr <= y < lower cr).
  { subst cr. unfold spec_croprect, left, right, upper, lower in *.
    cbn [fst snd] in *. lia. }
  unfold crop, inside. cbn [size getpixel fst snd].
  replace (x - left cr + left cr) with x by lia.
  replace (y - upper cr + upper cr) with y by lia.
  split.
  - rewrite !andb_true_iff, !Z.leb_le, !Z.ltb_lt. lia.
  - replace ((0 <=? x) && (x <? fst (size (croppedimage f))) && (0 <=? y)
             && (y <? snd (size (croppedimage f)))) with true; [reflexivity |].
    symmetry. rewrite !andb_true_iff, !Z.leb_le, !Z.ltb_lt. lia.
Qed.

Lemma uniformcrop_keeps_content_gradient :
  exists cr imgs im,
    croprect (cropped_state gradient_batch) = Some cr /\
    croppedimages (cropped_state gradient_batch) = Some imgs /\
    nth_error imgs 1 = Some im /\
    inside im (149 - left cr) (50 - upper cr) = true /\
    getpixel im (149 - left cr) (50 - upper cr) = (149, 50, 0, 255).
Proof.
  destruct (uniformcrop_keeps_content gradient_batch (cropped_state gradient_batch) 1
              (mkImpostorFile (38, 12, 150, 95) (gradient (198, 100))))
    as (cr & imgs & im & H1 & H2 & H3 & H4).
  - repeat constructor; cbn; lia.
  - vm_compute. reflexivity.
  - reflexivity.
  - exists cr, imgs, im. split; [exact H1 |]. split; [exact H2 |].
    split; [exact H3 |].
    apply (H4 149 50); [reflexivity | cbn; lia | cbn; lia].
Defined.

End UniformCropMore.

Section ValidatorMore.

(** X9. Cropping twice changes nothing: [uniformcrop] reads only the
    records, which it leaves alone, so a second call on the object that a
    successful call returned succeeds again and returns the same object. *)
Theorem uniformcrop_idempotent (self self' : Impostor) :
  uniformcrop self = Return (true, self') ->
  uniformcrop self' = Return (true, self').
Proof.
  intros H.
  apply uniformcrop_true_inv in H as (mw & mh & cr & Emw & Emh & Esc & Ecr & ->).
  unfold uniformcrop.
  cbn [set_croppedimages set_croprect set_sizes impostorfiles].
  fold (cropped_sizes self) (bboxes self).
  rewrite Emw, Emh. cbn [bind]. rewrite Esc. cbn [bind negb]. rewrite Ecr.
  reflexivity.
Qed.

Lemma uniformcrop_idempotent_three_shots :
  uniformcrop (cropped_state three_shots) = Return (true, cropped_state three_shots).
Proof.
  apply (uniformcrop_idempotent three_shots). vm_compute. reflexivity.
Defined.

(** X10. The size check is exact: although it divides and compares in
    floating point against the binary64 value of 0.05, for all image sizes
    that Pillow can hold it passes exactly the batches in which every
    record has [20 * (maxWidth - w) <= maxWidth] and
    [20 * (maxHeight - h) <= maxHeight], that is, width and height of at
    least 95 percent of the greatest ones. *)
Theorem validated_iff_five_percent (self : Impostor) :
  impostorfiles self <> [] -> pil_sizes self ->
  0 < maxWidth self -> 0 < maxHeight self ->
  validated self <->
  Forall (fun s => 20 * (maxWidth self - fst s) <= maxWidth self /\
                   20 * (maxHeight self - snd s) <= maxHeight self)
         (cropped_sizes self).
Proof.
  intros Hne Hpil Hw Hh.
  destruct (batch_bounds self Hne Hpil) as (Hw' & Hh' & Hall).
  rewrite validated_sizecheck by assumption.
  rewrite sizecheck_positive by (assumption || lia).
  rewrite Forall_forall. split.
  - intros H s Hs. injection H as H. rewrite forallb_forall in H.
    specialize (H s Hs). apply andb_true_iff in H as [H1 H2].
    now rewrite within_tolerance_iff in H1, H2.
  - intros H. f_equal. apply forallb_forall. intros s Hs.
    destruct (H s Hs) as [H1 H2]. apply andb_true_iff.
    now rewrite !within_tolerance_iff.
Qed.

Lemma validated_iff_five_percent_three_shots :
  validated three_shots <->
  Forall (fun s => 20 * (200 - fst s) <= 200 /\ 20 * (100 - snd s) <= 100)
         (cropped_sizes three_shots).
Proof.
  apply (validated_iff_five_percent three_shots);
    [cbn; discriminate | repeat constructor; cbn; lia | cbn; lia | cbn; lia].
Defined.

(** X11. Images of one and the same size always pass: when all cropped
    images have the same positive size, [uniformcrop] succeeds. *)
Theorem uniformcrop_same_size (self : Impostor) (w h : Z) :
  impostorfiles self <> [] ->
  0 < w < 2 ^ 31 -> 0 < h < 2 ^ 31 ->
  Forall (fun s => s = (w, h)) (cropped_sizes self) ->
  exists self', uniformcrop self = Return (true, self').
Proof.
  intros Hne Hw Hh Hall. rewrite Forall_forall in Hall.
  assert (Hpil : pil_sizes self).
  { apply Forall_forall. intros s Hs. rewrite (Hall s Hs). split; cbn; lia. }
  pose proof (cropped_sizes_nonempty self Hne) as Hne'.
  destruct (maximum_spec _ (map_nonempty fst _ Hne')) as [Hin1 _].
  destruct (maximum_spec _ (map_nonempty snd _ Hne')) as [Hin2 _].
  fold (maxWidth self) in Hin1. fold (maxHeight self) in Hin2.
  apply in_map_iff in Hin1 as (s1 & E1 & Hs1). rewrite (Hall s1 Hs1) in E1.
  apply in_map_iff in Hin2 as (s2 & E2 & Hs2). rewrite (Hall s2 Hs2) in E2.
  cbn [fst snd] in E1, E2.
  rewrite uniformcrop_positive by (assumption || lia).
  replace (forallb _ _) with true; [eauto |].
  symmetry. apply forallb_forall. intros s Hs. rewrite (Hall s Hs).
  unfold size_within_tolerance. cbn [fst snd]. rewrite <- E1, <- E2.
  apply andb_true_iff. split; apply within_tolerance_iff; lia.
Qed.

Lemma uniformcrop_same_size_batch :
  exists self', uniformcrop same_size_batch = Return (true, self').
Proof.
  apply (uniformcrop_same_size same_size_batch 640 480);
    [cbn; discriminate | lia | lia | repeat constructor].
Defined.

(** X12. A failed size check leaves nothing to build on: when
    [uniformcrop] returns failure on an object that has only been
    constructed and given its records, [calcimpostorsize] raises
    [TypeError], as [self.sizes] is still [None], and [generateimpostor]
    raises [AttributeError], as [self.croppedimages] was never set. *)
Theorem failed_crop_leaves_nothing (args : Args) (ifiles : list ImpostorFile)
        (self' : Impostor) :
  uniformcrop (set_impostorfiles (Impostor_init args) ifiles) = Return (false, self') ->
  calcimpostorsize self' = Raise TypeError /\
  forall resize imagesize,
    generateimpostor resize self' imagesize = Raise AttributeError.
Proof.
  intros H. apply uniformcrop_false_inv in H as ->. split; reflexivity.
Qed.

Lemma failed_crop_leaves_nothing_flat_batch :
  calcimpostorsize flat_batch = Raise TypeError /\
  forall resize imagesize,
    generateimpostor resize flat_batch imagesize = Raise AttributeError.
Proof.
  apply (failed_crop_leaves_nothing (options flat_batch) (impostorfiles flat_batch)).
  vm_compute. reflexivity.
Defined.

End ValidatorMore.

(* ================================================================== *)
(** * More on reading, extracting and compositing                      *)
(* ================================================================== *)

Section FlowMore.

Variable resize : Image -> Z * Z -> result Image.
Variable RawFile : Type.
Variable ImpostorFile_readimage : Impostor -> str -> result RawFile.
Variable ImpostorFile_extract : RawFile -> result (option ImpostorFile).

Local Abbreviation flow_main :=
  (main resize RawFile ImpostorFile_readimage ImpostorFile_extract).
Local Abbreviation flow_readfiles := (readfiles RawFile ImpostorFile_readimage).
Local Abbreviation flow_processfiles := (processfiles RawFile ImpostorFile_extract).

(** X13. [processfiles] is all or nothing: it returns success exactly when
    [extract] returns a true value for every file, and then the records are
    the extracted ones, in the order of the files. *)
Theorem processfiles_all_or_nothing (raws : list RawFile)
        (ifiles : list ImpostorFile) :
  flow_processfiles raws = Return (Some ifiles) <->
  Forall2 (fun raw f => ImpostorFile_extract raw = Return (Some f)) raws ifiles.
Proof.
  revert ifiles. induction raws as [| raw raws IH]; intros ifiles;
    cbn [processfiles].
  - split; intros H.
    + injection H as <-. constructor.
    + inversion H. reflexivity.
  - split; intros H.
    + destruct (ImpostorFile_extract raw) as [[f |] | e] eqn:E; cbn [bind] in H;
        try discriminate.
      destruct (flow_processfiles raws) as [[fs |] | e]; cbn [bind] in H;
        try discriminate.
      injection H as <-. constructor; [exact E |]. now apply IH.
    + inversion H as [| raw' f raws' fs Hf Hrest]; subst.
      rewrite Hf. cbn [bind]. apply IH in Hrest. rewrite Hrest. reflexivity.
Qed.

(** X14. [processfiles] stops at the first file that does not extract:
    when the files before it extract and its own [extract] returns a false
    value, the result is failure, and when it raises, the exception goes
    through; the files after it play no part. *)
Theorem processfiles_first_failure (pre post : list RawFile) (bad : RawFile) :
  Forall (fun raw => exists f, ImpostorFile_extract raw = Return (Some f)) pre ->
  (ImpostorFile_extract bad = Return None ->
   processfiles RawFile ImpostorFile_extract (pre ++ bad :: post)
   = Return None) /\
  (forall e, ImpostorFile_extract bad = Raise e ->
             processfiles RawFile ImpostorFile_extract (pre ++ bad :: post)
             = Raise e).
Proof.
  induction 1 as [| raw pre [f Hf] _ [IH1 IH2]]; cbn [app processfiles].
  - split; [intros -> | intros e ->]; reflexivity.
  - rewrite Hf. cbn [bind]. split.
    + intros Hbad. now rewrite (IH1 Hbad).
    + intros e Hbad. now rewrite (IH2 e Hbad).
Qed.

(** X15. [readfiles] reads every name once, in order: it returns a list
    exactly when every read returns, and that list holds the objects read,
    one per file name and in the same order. *)
Theorem readfiles_in_order (self : Impostor) (raws : list RawFile) :
  flow_readfiles self = Return raws <->
  Forall2 (fun name raw => ImpostorFile_readimage self name = Return raw)
          (filenames self) raws.
Proof.
  unfold readfiles. revert raws.
  induction (filenames self) as [| name names IH]; intros raws;
    cbn [readfiles_loop].
  - split; intros H.
    + injection H as <-. constructor.
    + inversion H. reflexivity.
  - split; intros H.
    + destruct (ImpostorFile_readimage self name) as [raw | e] eqn:E;
        cbn [bind] in H; [| discriminate].
      destruct (readfiles_loop _ _ self names) as [rest | e]; cbn [bind] in H;
        [| discriminate].
      injection H as <-. constructor; [exact E |]. now apply IH.
    + inversion H as [| name' raw names' rest Hr Hrest]; subst.
      rewrite Hr. cbn [bind]. apply IH in Hrest. rewrite Hrest. reflexivity.
Qed.

(** The loop from band [k]: when the image of band [k + j] fails to resize
    and those before it resize, the loop raises. *)
Lemma generateimpostor_loop_failure (imgs : list Image) (imagesize : Z * Z)
      (e : exn) :
  forall (pre post : list Image) (im : Image) (k : nat) (composite : Image),
    Forall (fun i => exists r, resize i imagesize = Return r) pre ->
    resize im imagesize = Raise e ->
    skipn k imgs = pre ++ im :: post ->
    generateimpostor_loop resize imgs imagesize
                          (seq k (length (pre ++ im :: post))) composite
    = Raise e.
Proof.
  induction pre as [| p pre IH]; intros post im k composite Hpre Him Hskip.
  - cbn [app length seq generateimpostor_loop].
    assert (Hk : nth_error imgs k = Some im).
    { rewrite <- (firstn_skipn k imgs) at 1. rewrite Hskip.
      rewrite nth_error_app2; rewrite length_firstn;
        assert (k <= length imgs)%nat
        by (destruct (Nat.le_gt_cases k (length imgs)); [assumption |];
            rewrite skipn_all2 in Hskip by lia; discriminate);
        [| lia].
      replace (k - Nat.min k (length imgs))%nat with 0%nat by lia. reflexivity. }
    rewrite (getitem_nth _ _ _ Hk). cbn [bind]. now rewrite Him.
  - cbn [app length seq generateimpostor_loop].
    inversion Hpre as [| p' pre' [r Hr] Hpre']; subst.
    assert (Hk : nth_error imgs k = Some p).
    { rewrite <- (firstn_skipn k imgs) at 1. rewrite Hskip.
      rewrite nth_error_app2; rewrite length_firstn;
        assert (k <= length imgs)%nat
        by (destruct (Nat.le_gt_cases k (length imgs)); [assumption |];
            rewrite skipn_all2 in Hskip by lia; discriminate);
        [| lia].
      replace (k - Nat.min k (length imgs))%nat with 0%nat by lia. reflexivity. }
    rewrite (getitem_nth _ _ _ Hk). cbn [bind]. rewrite Hr. cbn [bind].
    apply (IH post im (S k)); try assumption.
    replace (S k) with (1 + k)%nat by lia.
    rewrite <- skipn_skipn, Hskip. reflexivity.
Qed.

(** X16. A resize that fails is fatal: when the cropped images before some
    image resize and that image does not, [generateimpostor] raises the
    exception of that resize, whatever comes after. *)
Theorem generateimpostor_resize_failure (self : Impostor) (pre post : list Image)
        (im : Image) (tw th : Z) (e : exn) :
  croppedimages self = Some (pre ++ im :: post) -> 0 <= tw -> 0 <= th ->
  Forall (fun i => exists r, resize i (tw, th) = Return r) pre ->
  resize im (tw, th) = Raise e ->
  generateimpostor resize self (tw, th) = Raise e.
Proof.
  intros Himgs Htw Hth Hpre Him. unfold generateimpostor.
  rewrite Himgs. cbn [attribute bind fst snd]. unfold Image_new. cbn [fst snd].
  replace ((tw <? 0) || (th * Z.of_nat (length (pre ++ im :: post)) <? 0))
    with false by (symmetry; apply orb_false_iff; rewrite !Z.ltb_ge; nia).
  cbn [bind].
  apply generateimpostor_loop_failure; [assumption | assumption | reflexivity].
Qed.

(** When the loop returns, every image of its bands has resized. *)
Lemma generateimpostor_loop_resized (imgs : list Image) (imagesize : Z * Z) :
  forall (n k : nat) (composite out : Image),
    (k + n = length imgs)%nat ->
    generateimpostor_loop resize imgs imagesize (seq k n) composite = Return out ->
    exists resized,
      Forall2 (fun im r => resize im imagesize = Return r) (skipn k imgs) resized.
Proof.
  induction n as [| n IH]; intros k composite out Hk H.
  - exists []. rewrite skipn_all2 by lia. constructor.
  - cbn [seq generateimpostor_loop] in H.
    destruct (nth_error imgs k) as [im |] eqn:Eim;
      [| apply nth_error_None in Eim; lia].
    rewrite (getitem_nth _ _ _ Eim) in H. cbn [bind] in H.
    destruct (resize im imagesize) as [r |] eqn:Er; cbn [bind] in H;
      [| discriminate].
    destruct (IH (S k) _ out ltac:(lia) H) as [rest Hrest].
    exists (r :: rest).
    assert (Hskip : skipn k imgs = im :: skipn (S k) imgs).
    { clear - Eim. revert k Eim. induction imgs as [| a l IHl]; intros [| k] E;
        try discriminate.
      - injection E as ->. reflexivity.
      - cbn [skipn]. now apply IHl. }
    rewrite Hskip. now constructor.
Qed.

Hypothesis resize_size :
  forall im sz r, resize im sz = Return r -> size r = sz.

(** X17. From the files to the sheet: when the reference flow saves a
    composite, every file has been read and extracted, the size check has
    passed, and the band of rows [64 * k .. 64 * k + 63] of the composite
    is the cropped image of the [k]-th file, cut by the shared crop
    rectangle and resized to 128 by 64. *)
Theorem main_saved_bands (args : Args) (outfile : str) (finalimage : Image)
        (finalsize : float * float) :
  flow_main args = Return (Saved outfile finalimage finalsize) ->
  exists raws ifiles cr,
    flow_readfiles (Impostor_init args) = Return raws /\
    flow_processfiles raws = Return (Some ifiles) /\
    validated (set_impostorfiles (Impostor_init args) ifiles) /\
    forall k f,
      nth_error ifiles k = Some f ->
      exists r,
        resize (crop (croppedimage f) cr) (128, 64) = Return r /\
        forall x y, 0 <= x < 128 -> 0 <= y < 64 ->
                    getpixel finalimage x (64 * Z.of_nat k + y) = getpixel r x y.
Proof.
  unfold main. intros H.
  destruct (flow_readfiles (Impostor_init args)) as [raws | e] eqn:Eraws;
    cbn [bind] in H; [| discriminate].
  destruct (outfilename _ None); cbn [bind] in H; [| discriminate].
  destruct (flow_processfiles raws) as [[ifiles |] | e] eqn:Eproc; cbn [bind] in H;
    try discriminate.
  destruct (uniformcrop _) as [[valid imp] | e] eqn:Ecrop; cbn [bind] in H;
    [| discriminate].
  destruct valid; cbn [negb] in H; [| discriminate].
  destruct (generateimpostor resize imp (128, 64)) as [img | e] eqn:Egen;
    cbn [bind] in H; [| discriminate].
  destruct (calcimpostorsize imp); cbn [bind] in H; [| discriminate].
  injection H as _ <- _.
  apply uniformcrop_true_inv in Ecrop
    as (mw & mh & cr & Emw & Emh & Esc & Ecr & ->).
  exists raws, ifiles, cr.
  split; [first [reflexivity | exact Eraws] |].
  split; [first [reflexivity | exact Eproc] |].
  split.
  { unfold validated. rewrite Emw, Emh. cbn [bind]. exact Esc. }
  cbn [set_impostorfiles impostorfiles] in Egen.
  unfold generateimpostor in Egen.
  cbn [croppedimages set_croppedimages attribute bind fst snd] in Egen.
  set (imgs := map (fun impf => crop (croppedimage impf) cr) ifiles) in *.
  unfold Image_new in Egen. destruct (_ || _); cbn [bind] in Egen; [discriminate |].
  destruct (generateimpostor_loop_resized imgs (128, 64) (length imgs) 0%nat _ _
              eq_refl Egen) as [resized Hres].
  cbn [skipn] in Hres.
  destruct (generateimpostor_loop_bands resize resize_size imgs resized 128 64
              ltac:(lia) Hres (length imgs) 0%nat
              (new (128, 64 * Z.of_nat (length imgs))) eq_refl)
    as (out & Hout & Hpix).
  rewrite Hout in Egen. injection Egen as <-.
  intros k f Hk.
  assert (Him : nth_error imgs k = Some (crop (croppedimage f) cr))
    by (subst imgs; now rewrite nth_error_map, Hk).
  destruct (Forall2_nth_left _ _ _ _ _ Hres Him) as (r & Hr & Hrs).
  exists r. split; [exact Hrs |]. intros x y Hx Hy.
  destruct (Hpix x (64 * Z.of_nat k + y)) as [Hin _].
  rewrite (Hin k r); [f_equal; lia | lia | exact Hr | exact Hx | lia].
Qed.

End FlowMore.

Lemma processfiles_first_failure_picky :
  processfiles str extract_picky
    (map list_ascii_of_string ["a"; "b"; "bad"; "broken"]%string) = Return None.
Proof.
  apply (processfiles_first_failure str extract_picky
           (map list_ascii_of_string ["a"; "b"]%string)
           (map list_ascii_of_string ["broken"]%string)
           (list_ascii_of_string "bad"));
    [| reflexivity].
  repeat constructor; eexists; reflexivity.
Defined.

Lemma generateimpostor_resize_failure_wide :
  generateimpostor resize_small_only
    (set_croppedimages two_shots
       [solid (124, 80) red; solid (2000, 80) red; solid (124, 80) red])
    (128, 64)
  = Raise ValueError.
Proof.
  apply (generateimpostor_resize_failure resize_small_only _
           [solid (124, 80) red] [solid (124, 80) red] (solid (2000, 80) red)
           128 64 ValueError);
    [reflexivity | lia | lia | | reflexivity].
  repeat constructor. eexists. reflexivity.
Defined.

Lemma main_saved_bands_two_shots :
  exists outfile finalimage finalsize,
    main resize_nearest str read_name extract_fixed (options two_shots)
    = Return (Saved outfile finalimage finalsize) /\
    exists raws ifiles cr,
      readfiles str read_name (Impostor_init (options two_shots)) = Return raws /\
      processfiles str extract_fixed raws = Return (Some ifiles) /\
      validated (set_impostorfiles (Impostor_init (options two_shots)) ifiles) /\
      forall k f,
        nth_error ifiles k = Some f ->
        exists r,
          resize_nearest (crop (croppedimage f) cr) (128, 64) = Return r /\
          forall x y, 0 <= x < 128 -> 0 <= y < 64 ->
                      getpixel finalimage x (64 * Z.of_nat k + y) = getpixel r x y.
Proof.
  assert (Hsz : forall im sz r, resize_nearest im sz = Return r -> size r = sz).
  { intros im sz r. unfold resize_nearest.
    destruct (_ || _); [discriminate |]. intros H. now injection H as <-. }
  destruct (main resize_nearest str read_name extract_fixed (options two_shots))
    as [[| | outfile finalimage finalsize] | e] eqn:E;
    try (vm_compute in E; discriminate).
  exists outfile, finalimage, finalsize. split; [reflexivity |].
  exact (main_saved_bands resize_nearest str read_name extract_fixed Hsz
           (options two_shots) outfile finalimage finalsize E).
Defined.

(* ================================================================== *)
(** * Order of the records, and the ways the flow stops                *)
(* ================================================================== *)

Section OrderOfRecords.

Lemma maximum_permutation (l l' : list Z) :
  Permutation l l' -> l <> [] -> maximum l = maximum l'.
Proof.
  intros Hp Hne.
  assert (Hne' : l' <> []).
  { intros ->. apply Permutation_sym, Permutation_nil in Hp. congruence. }
  destruct (maximum_spec l Hne) as [Hin Hall].
  destruct (maximum_spec l' Hne') as [Hin' Hall'].
  rewrite Forall_forall in Hall, Hall'.
  pose proof (Hall' _ (Permutation_in _ Hp Hin)).
  pose proof (Hall _ (Permutation_in _ (Permutation_sym Hp) Hin')). lia.
Qed.

Lemma minimum_permutation (l l' : list Z) :
  Permutation l l' -> l <> [] -> minimum l = minimum l'.
Proof.
  intros Hp Hne.
  assert (Hne' : l' <> []).
  { intros ->. apply Permutation_sym, Permutation_nil in Hp. congruence. }
  destruct (minimum_spec l Hne) as [Hin Hall].
  destruct (minimum_spec l' Hne') as [Hin' Hall'].
  rewrite Forall_forall in Hall, Hall'.
  pose proof (Hall' _ (Permutation_in _ Hp Hin)).
  pose proof (Hall _ (Permutation_in _ (Permutation_sym Hp) Hin')). lia.
Qed.

Lemma forallb_permutation {A : Type} (f : A -> bool) (l l' : list A) :
  Permutation l l' -> forallb f l = forallb f l'.
Proof.
  induction 1 as [| x l l' _ IH | x y l | l l' l'' _ IH1 _ IH2]; cbn [forallb].
  - reflexivity.
  - now rewrite IH.
  - now rewrite !andb_assoc, (andb_comm (f y)).
  - now rewrite IH1.
Qed.

Lemma spec_croprect_permutation (mw : Z) (boxes boxes' : list rect) :
  Permutation boxes boxes' -> boxes <> [] ->
  spec_croprect mw boxes = spec_croprect mw boxes'.
Proof.
  intros Hp Hne. unfold spec_croprect.
  rewrite (minimum_permutation (map left boxes) (map left boxes')),
    (minimum_permutation (map upper boxes) (map upper boxes')),
    (maximum_permutation (map right boxes) (map right boxes')),
    (maximum_permutation (map lower boxes) (map lower boxes'));
    try (now apply Permutation_map); try (now apply map_nonempty).
  reflexivity.
Qed.

(** X18. With positive greatest width and height, the order of the input
    files does not matter to [uniformcrop]: on two batches that hold the
    same records in different orders it returns the same verdict, and on
    success the same extents and the same crop rectangle. *)
Theorem uniformcrop_order_independent (self1 self2 : Impostor) :
  Permutation (impostorfiles self1) (impostorfiles self2) ->
  impostorfiles self1 <> [] -> pil_sizes self1 ->
  0 < maxWidth self1 -> 0 < maxHeight self1 ->
  exists valid s1 s2,
    uniformcrop self1 = Return (valid, s1) /\
    uniformcrop self2 = Return (valid, s2) /\
    (valid = true -> croprect s1 = croprect s2 /\ sizes s1 = sizes s2).
Proof.
  intros Hp Hne Hpil Hw Hh.
  assert (Hne2 : impostorfiles self2 <> []).
  { intros E. rewrite E in Hp. apply Permutation_sym, Permutation_nil in Hp.
    congruence. }
  assert (Hps : Permutation (cropped_sizes self1) (cropped_sizes self2))
    by now apply Permutation_map.
  assert (Hpb : Permutation (bboxes self1) (bboxes self2))
    by now apply Permutation_map.
  assert (Hpil2 : pil_sizes self2)
    by (unfold pil_sizes in *; now rewrite <- Hps).
  pose proof (cropped_sizes_nonempty self1 Hne) as Hne'.
  assert (Ew : maxWidth self2 = maxWidth self1).
  { symmetry. apply maximum_permutation;
      [now apply Permutation_map | now apply map_nonempty]. }
  assert (Eh : maxHeight self2 = maxHeight self1).
  { symmetry. apply maximum_permutation;
      [now apply Permutation_map | now apply map_nonempty]. }
  rewrite (uniformcrop_positive self1), (uniformcrop_positive self2)
    by (assumption || lia).
  rewrite Ew, Eh, <- (forallb_permutation _ _ _ Hps).
  destruct (forallb _ (cropped_sizes self1)).
  - exists true, (cropped_state self1), (cropped_state self2).
    split; [reflexivity |]. split; [reflexivity |]. intros _.
    unfold cropped_state. cbn [croprect sizes set_croppedimages set_croprect set_sizes].
    rewrite Ew, Eh.
    rewrite (spec_croprect_permutation _ _ _ Hpb) by now apply map_nonempty.
    split; reflexivity.
  - exists false, self1, self2.
    split; [reflexivity |]. split; [reflexivity | discriminate].
Qed.

Lemma uniformcrop_order_independent_three_shots :
  exists valid s1 s2,
    uniformcrop three_shots = Return (valid, s1) /\
    uniformcrop three_shots_reordered = Return (valid, s2) /\
    (valid = true -> croprect s1 = croprect s2 /\ sizes s1 = sizes s2).
Proof.
  apply (uniformcrop_order_independent three_shots three_shots_reordered);
    [| cbn; discriminate | repeat constructor; cbn; lia | cbn; lia | cbn; lia].
  cbn [three_shots three_shots_reordered batch_of set_impostorfiles impostorfiles].
  apply Permutation_sym.
  apply (Permutation_cons_app [_; _] [] _). apply Permutation_refl.
Defined.

End OrderOfRecords.

Section WaysToStop.

Variable resize : Image -> Z * Z -> result Image.
Variable RawFile : Type.
Variable ImpostorFile_readimage : Impostor -> str -> result RawFile.
Variable ImpostorFile_extract : RawFile -> result (option ImpostorFile).

Local Abbreviation stop_main :=
  (main resize RawFile ImpostorFile_readimage ImpostorFile_extract).
Local Abbreviation stop_readfiles := (readfiles RawFile ImpostorFile_readimage).
Local Abbreviation stop_processfiles := (processfiles RawFile ImpostorFile_extract).

(** X19. The flow saves nothing after a failure: once the files are read,
    it ends with "process files failed" when some [extract] returns a false
    value, and with "uniform crop failed" when the extraction succeeds and
    the size check does not; in neither case is a composite built. *)
Theorem main_stops_on_failure (args : Args) (raws : list RawFile) :
  files args <> [] ->
  stop_readfiles (Impostor_init args) = Return raws ->
  (stop_processfiles raws = Return None ->
   stop_main args = Return ProcessFilesFailed) /\
  (forall ifiles imp,
      stop_processfiles raws = Return (Some ifiles) ->
      uniformcrop (set_impostorfiles (Impostor_init args) ifiles)
      = Return (false, imp) ->
      stop_main args = Return UniformCropFailed).
Proof.
  intros Hfiles Hraws.
  assert (Hname : exists outfile,
             outfilename (Impostor_init args) None = Return outfile).
  { destruct (files args) as [| f0 fs] eqn:Ef; [congruence |].
    destruct (stringscommon_longest f0 fs) as (p & Hp & _).
    destruct (outfilename_of_common (Impostor_init args) p) as (d & b & _ & _ & _ & E).
    - cbn [Impostor_init filenames]. now rewrite Ef.
    - eauto. }
  destruct Hname as [outfile Hname].
  unfold main. rewrite Hraws. cbn [bind]. rewrite Hname. cbn [bind].
  split.
  - intros ->. reflexivity.
  - intros ifiles imp Hp Hu. rewrite Hp. cbn [bind]. rewrite Hu. reflexivity.
Qed.


End WaysToStop.

Lemma main_stops_on_failure_picky :
  let args := set_rez (mkArgs float_6_0 float_3_0 64 [] [] false
                         (map list_ascii_of_string ["a"; "bad"; "broken"]%string)) 64 in
  main resize_nearest str read_name extract_picky args = Return ProcessFilesFailed.
Proof.
  intros args.
  destruct (main_stops_on_failure resize_nearest str read_name extract_picky args
              (map list_ascii_of_string ["a"; "bad"; "broken"]%string)) as [H _];
    [cbn; discriminate | reflexivity |].
  apply H. reflexivity.
Defined.


Section SizeAfterCrop.

(** X21. The size step cannot fail after a successful crop: on a batch of
    Pillow sizes whose bounding boxes lie within the canvas and have their
    upper edge not below their lower edge, the object that a successful
    [uniformcrop] returns makes [calcimpostorsize] return a pair of sizes;
    it raises nothing, whatever the frame size is. *)
Theorem calcimpostorsize_after_crop (self self' : Impostor) :
  pil_sizes self ->
  Forall (within_canvas (maxWidth self) (maxHeight self)) (bboxes self) ->
  Forall (fun b => upper b <= lower b) (bboxes self) ->
  uniformcrop self = Return (true, self') ->
  exists finalsize, calcimpostorsize self' = Return finalsize.
Proof.
  intros Hpil Hin Hprop H.
  assert (Hne : impostorfiles self <> []).
  { intros E. rewrite uniformcrop_empty in H by assumption. discriminate. }
  rewrite uniformcrop_spec in H by assumption.
  destruct (sizecheck _ _ _) as [[|] | e] eqn:Esc; cbn [bind] in H; try discriminate.
  injection H as <-.
  destruct (batch_bounds self Hne Hpil) as (Hw & Hh & _).
  assert (Hnz : maxWidth self <> 0 /\ maxHeight self <> 0).
  { pose proof (cropped_sizes_nonempty self Hne) as Hne'.
    destruct (cropped_sizes self) as [| s l]; [congruence |].
    now apply sizecheck_true_nonzero in Esc. }
  assert (Hb : bboxes self <> []) by now apply map_nonempty.
  destruct (maximum_spec (map right (bboxes self)) (map_nonempty _ _ Hb)) as [Hmr _].
  destruct (maximum_spec (map lower (bboxes self)) (map_nonempty _ _ Hb)) as [Hml _].
  destruct (minimum_spec (map left (bboxes self)) (map_nonempty _ _ Hb)) as [Hnl _].
  destruct (minimum_spec (map upper (bboxes self)) (map_nonempty _ _ Hb)) as [Hnu _].
  rewrite Forall_forall in Hin.
  apply in_map_iff in Hmr as (b1 & E1 & Hb1). destruct (Hin b1 Hb1) as (_ & R1 & _ & _).
  apply in_map_iff in Hml as (b2 & E2 & Hb2). destruct (Hin b2 Hb2) as (_ & _ & U2 & R2).
  apply in_map_iff in Hnl as (b3 & E3 & Hb3). destruct (Hin b3 Hb3) as (R3 & _ & _ & _).
  apply in_map_iff in Hnu as (b4 & E4 & Hb4). destruct (Hin b4 Hb4) as (_ & _ & R4 & U4).
  rewrite E1 in R1. rewrite E2 in R2. rewrite E3 in R3. rewrite E4 in R4.
  destruct (spec_croprect_geometry (maxWidth self) (bboxes self))
    as (_ & _ & G3 & G4 & G5 & _ & G6).
  destruct (G6 ltac:(lia) R3 R1) as [G7 G8].
  pose proof (Z.div_mod (maxWidth self) 2 ltac:(lia)) as Hdm.
  pose proof (Z.mod_pos_bound (maxWidth self) 2 ltac:(lia)) as Hmod.
  rewrite Forall_forall in Hprop.
  pose proof (Hprop b2 Hb2) as P2. pose proof (Hprop b4 Hb4) as P4.
  rewrite E2 in P2. rewrite E4 in P4.
  change (2 ^ 31) with 2147483648 in *.
  unfold calcimpostorsize, cropped_state.
  cbn [sizes croprect framesize set_croppedimages set_croprect set_sizes
       subscript bind fst snd].
  rewrite !float_div_int_small
    by (change (2 ^ 53) with 9007199254740992; lia).
  cbn [bind].
  set (cr := spec_croprect (maxWidth self) (bboxes self)) in *.
  rewrite !float_mul_int_small
    by (change (2 ^ 53) with 9007199254740992; lia).
  cbn [bind]. eauto.
Qed.

Lemma calcimpostorsize_after_crop_three_shots :
  exists finalsize, calcimpostorsize (cropped_state three_shots) = Return finalsize.
Proof.
  apply (calcimpostorsize_after_crop three_shots);
    [repeat constructor; cbn; lia | repeat constructor; cbn; lia
     | repeat constructor; cbn; lia |].
  vm_compute. reflexivity.
Defined.

End SizeAfterCrop.
